(** * Syncy socket server: room synchronisation core (server/index.ts)

    A shallow embedding of the socket.io server of server/index.ts: the
    global [rooms] table, the per-connection closure variables
    [currentRoomId]/[currentUserId], the event handlers registered in
    [io.on('connection', ...)], and the helper [doLeave].

    Modelling conventions.
    - A JavaScript [number] is an IEEE-754 binary64, i.e. a primitive
      [float]; [Date.now()] yields such a number.
    - TypeScript types are erased at run time, so a field of an inbound
      payload may be absent.  An absent field ([undefined]) is [None]; a
      present one carries a value of its declared type.  Fields of
      [RoomState] that are assigned straight from a payload ([position],
      [status]) are therefore optional too, and [status] is a string,
      whatever the declared union type says.  [null], which the code
      uses for the host, the song and the closure variables, is [None]
      as well: the code only tests these for truthiness or equality.
    - A JavaScript [Map] iterates in insertion order; [members] is an
      association list with the update discipline of [Map.set] (in place
      when the key exists, appended otherwise).  Maps that are never
      iterated are [gmap]s.
    - socket.io's adapter (which connection is subscribed to which
      broadcast room) is the table [channels]; every connection is
      subscribed to the room named by its own id.
    - [console.log] is dropped, except that the expressions it evaluates
      may throw ([room_id.slice], [position.toFixed]); a handler then ends
      in [Threw] with the state it had reached. *)

From Stdlib Require Import Floats.
From stdpp Require Import gmap strings list.

Open Scope string_scope.
Open Scope list_scope.

(** ** JavaScript primitives *)

(** Truthiness of a string-or-null value: [!v] is [negb (truthy v)]. *)
Definition truthy (v : option string) : bool :=
  match v with
  | Some s => bool_decide (s ≠ "")
  | None => false
  end.

(** [a || b] on string-or-null values. *)
Definition js_or (a b : option string) : option string :=
  if truthy a then a else b.

(** [a + b] where [a] is a number or [undefined] and [b] a number. *)
Definition js_plus (a : option float) (b : float) : float :=
  match a with
  | Some x => (x + b)%float
  | None => nan
  end.

(** ** Insertion-ordered [Map<string, V>] *)

Module JsMap.
Section Ops.
Context {V : Type}.

Fixpoint get (k : string) (m : list (string * V)) : option V :=
  match m with
  | [] => None
  | (k', v) :: m' => if decide (k = k') then Some v else get k m'
  end.

Definition has (k : string) (m : list (string * V)) : bool :=
  match get k m with Some _ => true | None => false end.

Fixpoint set (k : string) (v : V) (m : list (string * V)) : list (string * V) :=
  match m with
  | [] => [(k, v)]
  | (k', v') :: m' =>
      if decide (k = k') then (k, v) :: m' else (k', v') :: set k v m'
  end.

Definition delete (k : string) (m : list (string * V)) : list (string * V) :=
  filter (λ kv, kv.1 ≠ k) m.

Definition keys (m : list (string * V)) : list string := m.*1.
Definition values (m : list (string * V)) : list V := m.*2.
Definition size (m : list (string * V)) : nat := length m.
End Ops.
End JsMap.

(** ** Types *)

Record Member := {
  userId   : string;
  username : string;
  socketId : string;
  joinedAt : string;
}.

Record Song := {
  song_id     : string;
  song_title  : string;
  song_artist : string;
  song_url    : string;
  song_source : string;
  song_coverUrl : option string;
  song_duration : option float;
}.

Record RoomState := {
  members      : list (string * Member);
  socketToUser : gmap string string;
  hostUserId   : option string;
  currentSong  : option Song;
  position     : option float;
  status       : option string;
  lastSync     : float;
}.

(** The closure variables of one connection. *)
Record Conn := {
  currentRoomId : option string;
  currentUserId : option string;
}.

(** The process-wide state: the [rooms] table and socket.io's adapter. *)
Record Server := {
  rooms    : gmap string RoomState;
  channels : gmap string (gset string);
}.

(** The readings of the wall clock a handler takes, one per call site:
    [Date.now()] in [getRoom], [new Date().toISOString()] for [joinedAt],
    [Date.now()] stored in [lastSync], [Date.now()] in
    [getCurrentPosition], and [Date.now()] put in [server_time]. *)
Record Clock := {
  now_getRoom     : float;
  now_joinedAt    : string;
  now_lastSync    : float;
  now_position    : float;
  now_server_time : float;
}.

(** ** Messages *)

Record SerializedMember := {
  user_id   : string;
  sm_username : string;
  room_id   : string;
  joined_at : string;
}.

Record VoteData := {
  vote_room_id : option string;
  vote_poll_id : option string;
  vote_user_id : option string;
  vote_song_id : option string;
}.

(** The payload objects of the nine events.  Any field may be missing
    from the object a client sends ([None]); a field that is there has
    the type its handler declares. *)
Inductive inbound :=
| JoinRoom (room_id user_id username : option string)
| RequestState (room_id : option string)
| SyncPosition (room_id : option string) (position : option float)
               (status : option string) (server_time : option float)
| Play (room_id : option string) (position : option float)
| Pause (room_id : option string) (position : option float)
| SongChange (room_id : option string) (song : option Song)
| NextSong (room_id : option string)
| Vote (data : VoteData)
| LeaveRoom (room_id : option string).

Inductive message :=
| members_update (room_id : string) (members : list SerializedMember)
| room_state (room_id : string) (currentSong : option Song)
             (position : option float) (status : option string)
             (server_time : float) (members : list SerializedMember)
| sync_position (room_id : option string) (position : option float)
                (status : option string) (server_time : float)
| song_change (room_id : option string) (song : option Song)
| next_song (room_id : option string)
| promoted_to_host (room_id : string)
| vote (data : VoteData).

(** [io.to(room)], [socket.to(room)] from connection [sender], and
    [socket.emit]. *)
Inductive target :=
| io_to (room : string)
| socket_to (sender : string) (room : option string)
| socket_emit (sid : string).

Inductive emit := Emit (to : target) (msg : message).

(** How a handler ends: it returns, or an exception escapes it. *)
Inductive outcome :=
| Returned (c : Conn) (sv : Server) (out : list emit)
| Threw (err : string) (c : Conn) (sv : Server) (out : list emit).

Definition outcome_conn (o : outcome) : Conn :=
  match o with Returned c _ _ | Threw _ c _ _ => c end.
Definition outcome_server (o : outcome) : Server :=
  match o with Returned _ sv _ | Threw _ _ sv _ => sv end.
Definition outcome_emits (o : outcome) : list emit :=
  match o with Returned _ _ out | Threw _ _ _ out => out end.
Definition threw (o : outcome) : bool :=
  match o with Returned _ _ _ => false | Threw _ _ _ _ => true end.

(** ** socket.io adapter *)

Definition channel (ch : gmap string (gset string)) (r : string) : gset string :=
  default ∅ (ch !! r).

Definition socket_join (sid r : string) (ch : gmap string (gset string))
  : gmap string (gset string) :=
  <[r := {[sid]} ∪ channel ch r]> ch.

Definition socket_leave (sid r : string) (ch : gmap string (gset string))
  : gmap string (gset string) :=
  alter (λ s, s ∖ {[sid]}) r ch.

Definition socket_leaveAll (sid : string) (ch : gmap string (gset string))
  : gmap string (gset string) :=
  (λ s, s ∖ {[sid]}) <$> ch.

(** The connections an emit reaches, given the adapter at that moment. *)
Definition recipients (ch : gmap string (gset string)) (t : target) : gset string :=
  match t with
  | io_to r => channel ch r
  | socket_to sender (Some r) => channel ch r ∖ {[sender]}
  | socket_to sender None => ∅
  | socket_emit sid => {[sid]}
  end.

(** ** Room helpers *)

Definition with_members (ms : list (string * Member)) (stu : gmap string string)
  (room : RoomState) : RoomState :=
  {| members := ms; socketToUser := stu; hostUserId := hostUserId room;
     currentSong := currentSong room; position := position room;
     status := status room; lastSync := lastSync room |}.

Definition with_host (h : option string) (room : RoomState) : RoomState :=
  {| members := members room; socketToUser := socketToUser room; hostUserId := h;
     currentSong := currentSong room; position := position room;
     status := status room; lastSync := lastSync room |}.

Definition with_playback (song : option Song) (pos : option float)
  (st : option string) (t : float) (room : RoomState) : RoomState :=
  {| members := members room; socketToUser := socketToUser room;
     hostUserId := hostUserId room;
     currentSong := song; position := pos; status := st; lastSync := t |}.

Definition new_room (now : float) : RoomState :=
  {| members := []; socketToUser := ∅; hostUserId := None; currentSong := None;
     position := Some 0%float; status := Some "idle"; lastSync := now |}.

Definition getRoom (roomId : string) (now : float) (rs : gmap string RoomState)
  : gmap string RoomState * RoomState :=
  match rs !! roomId with
  | Some room => (rs, room)
  | None => (<[roomId := new_room now]> rs, new_room now)
  end.

Definition getCurrentPosition (room : RoomState) (now : float) : option float :=
  if bool_decide (status room ≠ Some "playing") then position room
  else
    let elapsed := ((now - lastSync room) / 1000)%float in
    Some (js_plus (position room) elapsed).

Definition serializeMembers (room : RoomState) (roomId : string)
  : list SerializedMember :=
  (λ m, {| user_id := userId m; sm_username := username m;
           room_id := roomId; joined_at := joinedAt m |})
    <$> JsMap.values (members room).

(** [rooms.get(room_id)] for a payload field that may be absent. *)
Definition rooms_get (room_id : option string) (rs : gmap string RoomState)
  : option RoomState :=
  room_id ≫= λ r, rs !! r.

(** ** Handlers *)

(** [room.socketToUser.get(socket.id) || currentUserId]. *)
Definition departing_user (sid : string) (c : Conn) (room : RoomState)
  : option string :=
  js_or (socketToUser room !! sid) (currentUserId c).

(** The [if (userId) { ... }] block of [doLeave]: the member is removed
    only when this connection is the one stored for it. *)
Definition remove_member (sid : string) (user : option string) (room : RoomState)
  : RoomState :=
  match user with
  | Some u =>
      if truthy user then
        let ms :=
          match JsMap.get u (members room) with
          | Some member =>
              if bool_decide (socketId member = sid)
              then JsMap.delete u (members room)
              else members room
          | None => members room
          end in
        with_members ms (delete sid (socketToUser room)) room
      else room
  | None => room
  end.

(** The [if (room.hostUserId === userId) { ... }] block of [doLeave]. *)
Definition reassign_host (rid : string) (user : option string) (room : RoomState)
  : RoomState * list emit :=
  if bool_decide (hostUserId room = user) then
    match JsMap.values (members room) with
    | newHost :: _ =>
        (with_host (Some (userId newHost)) room,
         [Emit (io_to (socketId newHost)) (promoted_to_host rid)])
    | [] => (with_host None room, [])
    end
  else (room, []).

Definition doLeave (sid : string) (roomId : option string) (c : Conn) (sv : Server)
  : Conn * Server * list emit :=
  match roomId, rooms_get roomId (rooms sv) with
  | Some rid, Some room =>
      let user := departing_user sid c room in
      let room1 := remove_member sid user room in
      let ch1 := socket_leave sid rid (channels sv) in
      if bool_decide (JsMap.size (members room1) = 0) then
        (c, {| rooms := delete rid (rooms sv); channels := ch1 |}, [])
      else
        let '(room2, promoted) := reassign_host rid user room1 in
        let out :=
          promoted ++
          [Emit (io_to rid) (members_update rid (serializeMembers room2 rid))] in
        let c' :=
          if bool_decide (Some rid = currentRoomId c)
          then {| currentRoomId := None; currentUserId := None |}
          else c in
        (c', {| rooms := <[rid := room2]> (rooms sv); channels := ch1 |}, out)
  | _, _ => (c, sv, [])
  end.

Definition on_join_room (sid : string) (room_id user_id uname : option string)
  (clk : Clock) (c : Conn) (sv : Server) : outcome :=
  match room_id, user_id with
  | Some rid, Some uid =>
      if negb (truthy room_id) || negb (truthy user_id) then Returned c sv []
      else
        let '(c1, sv1, out1) :=
          if truthy (currentRoomId c) && bool_decide (currentRoomId c ≠ Some rid)
          then doLeave sid (currentRoomId c) c sv
          else (c, sv, []) in
        let c2 := {| currentRoomId := Some rid; currentUserId := Some uid |} in
        let ch2 := socket_join sid rid (channels sv1) in
        let '(rooms2, room) := getRoom rid (now_getRoom clk) (rooms sv1) in
        let isRejoin := JsMap.has uid (members room) in
        let member :=
          {| userId := uid;
             username := if truthy uname then default "" uname else "Anonymous";
             socketId := sid;
             joinedAt :=
               if isRejoin then
                 match JsMap.get uid (members room) with
                 | Some m => joinedAt m
                 | None => now_joinedAt clk
                 end
               else now_joinedAt clk |} in
        let room1 :=
          with_members (JsMap.set uid member (members room))
                       (<[sid := uid]> (socketToUser room)) room in
        let room2 :=
          if negb (truthy (hostUserId room1)) then with_host (Some uid) room1
          else room1 in
        Returned c2
          {| rooms := <[rid := room2]> rooms2; channels := ch2 |}
          (out1 ++
           [Emit (io_to rid) (members_update rid (serializeMembers room2 rid));
            Emit (socket_emit sid)
              (room_state rid (currentSong room2)
                 (getCurrentPosition room2 (now_position clk))
                 (status room2) (now_server_time clk)
                 (serializeMembers room2 rid))])
  | _, _ => Returned c sv []
  end.

Definition on_request_state (sid : string) (room_id : option string)
  (clk : Clock) (c : Conn) (sv : Server) : outcome :=
  match room_id, rooms_get room_id (rooms sv) with
  | Some rid, Some room =>
      Returned c sv
        [Emit (socket_emit sid)
           (room_state rid (currentSong room)
              (getCurrentPosition room (now_position clk))
              (status room) (now_server_time clk)
              (serializeMembers room rid))]
  | _, _ => Returned c sv []
  end.

(** The common shape of the transport handlers: [rooms.get(room_id)], and
    when the room exists, an in-place update of it. *)
Definition update_room (room_id : option string) (f : RoomState → RoomState)
  (sv : Server) : Server :=
  match room_id, rooms_get room_id (rooms sv) with
  | Some rid, Some room =>
      {| rooms := <[rid := f room]> (rooms sv); channels := channels sv |}
  | _, _ => sv
  end.

Definition on_sync_position (sid : string) (room_id : option string)
  (pos : option float) (st : option string) (server_time : option float)
  (clk : Clock) (c : Conn) (sv : Server) : outcome :=
  let sv' :=
    update_room room_id
      (λ room, with_playback (currentSong room) pos st (now_lastSync clk) room) sv in
  Returned c sv'
    [Emit (socket_to sid room_id)
       (sync_position room_id pos st (now_server_time clk))].

(** [play] and [pause] end with a log line that evaluates
    [room_id.slice(0,8)] and [position.toFixed(2)]. *)
Definition on_transport (st : string) (sid : string) (room_id : option string)
  (pos : option float) (clk : Clock) (c : Conn) (sv : Server) : outcome :=
  let sv' :=
    update_room room_id
      (λ room, with_playback (currentSong room) pos (Some st) (now_lastSync clk) room)
      sv in
  let out :=
    [Emit (socket_to sid room_id)
       (sync_position room_id pos (Some st) (now_server_time clk))] in
  match room_id, pos with
  | Some _, Some _ => Returned c sv' out
  | _, _ => Threw "TypeError" c sv' out
  end.

Definition on_play := on_transport "playing".
Definition on_pause := on_transport "paused".

Definition on_song_change (sid : string) (room_id : option string)
  (song : option Song) (clk : Clock) (c : Conn) (sv : Server) : outcome :=
  let sv' :=
    update_room room_id
      (λ room,
         with_playback song (Some 0%float)
           (Some (match song with Some _ => "playing" | None => "idle" end)) (now_lastSync clk) room)
      sv in
  let out := [Emit (socket_to sid room_id) (song_change room_id song)] in
  match song, room_id with
  | Some _, None => Threw "TypeError" c sv' out
  | _, _ => Returned c sv' out
  end.

Definition on_next_song (sid : string) (room_id : option string)
  (clk : Clock) (c : Conn) (sv : Server) : outcome :=
  let sv' :=
    update_room room_id
      (λ room,
         with_playback (currentSong room) (Some 0%float) (status room)
           (now_lastSync clk) room)
      sv in
  Returned c sv' [Emit (socket_to sid room_id) (next_song room_id)].

Definition on_vote (sid : string) (data : VoteData) (c : Conn) (sv : Server)
  : outcome :=
  if truthy (vote_room_id data)
  then Returned c sv [Emit (socket_to sid (vote_room_id data)) (vote data)]
  else Returned c sv [].

Definition on_leave_room (sid : string) (room_id : option string)
  (c : Conn) (sv : Server) : outcome :=
  let '(c', sv', out) := doLeave sid room_id c sv in Returned c' sv' out.

Definition on_disconnect (sid : string) (c : Conn) (sv : Server) : outcome :=
  if truthy (currentRoomId c)
  then let '(c', sv', out) := doLeave sid (currentRoomId c) c sv in
       Returned c' sv' out
  else Returned c sv [].

(** Dispatch of one inbound message to its handler. *)
Definition handle (sid : string) (m : inbound) (clk : Clock) (c : Conn)
  (sv : Server) : outcome :=
  match m with
  | JoinRoom r u n => on_join_room sid r u n clk c sv
  | RequestState r => on_request_state sid r clk c sv
  | SyncPosition r p s t => on_sync_position sid r p s t clk c sv
  | Play r p => on_play sid r p clk c sv
  | Pause r p => on_pause sid r p clk c sv
  | SongChange r s => on_song_change sid r s clk c sv
  | NextSong r => on_next_song sid r clk c sv
  | Vote d => on_vote sid d c sv
  | LeaveRoom r => on_leave_room sid r c sv
  end.

(** ** The server as a transition system *)

Record World := {
  server : Server;
  conns  : gmap string Conn;
}.

Inductive event :=
| Connect (sid : string)
| Recv (sid : string) (m : inbound) (clk : Clock)
| Disconnect (sid : string).

Definition init : World :=
  {| server := {| rooms := ∅; channels := ∅ |}; conns := ∅ |}.

(** One event.  [None]: the event cannot happen in this world (a message
    from a connection that is not open, a connection id already in use),
    or the handler threw, which ends the process. *)
Definition step (w : World) (e : event) : option (World * list emit) :=
  match e with
  | Connect sid =>
      match conns w !! sid with
      | Some _ => None
      | None =>
          Some ({| server := {| rooms := rooms (server w);
                                channels := socket_join sid sid (channels (server w)) |};
                   conns := <[sid := {| currentRoomId := None; currentUserId := None |}]>
                              (conns w) |}, [])
      end
  | Recv sid m clk =>
      match conns w !! sid with
      | None => None
      | Some c =>
          match handle sid m clk c (server w) with
          | Returned c' sv' out =>
              Some ({| server := sv'; conns := <[sid := c']> (conns w) |}, out)
          | Threw _ _ _ _ => None
          end
      end
  | Disconnect sid =>
      match conns w !! sid with
      | None => None
      | Some c =>
          let sv0 := {| rooms := rooms (server w);
                        channels := socket_leaveAll sid (channels (server w)) |} in
          match on_disconnect sid c sv0 with
          | Returned _ sv' out =>
              Some ({| server := sv'; conns := delete sid (conns w) |}, out)
          | Threw _ _ _ _ => None
          end
      end
  end.

Fixpoint run (w : World) (es : list event) : option (World * list emit) :=
  match es with
  | [] => Some (w, [])
  | e :: es' =>
      match step w e with
      | Some (w', out) =>
          match run w' es' with
          | Some (w'', out') => Some (w'', out ++ out')
          | None => None
          end
      | None => None
      end
  end.

Definition reachable (w : World) : Prop :=
  ∃ es out, run init es = Some (w, out).

(** ** Well-formedness of the store *)

(** What the [Map] type guarantees and the handlers maintain for a room:
    keys are unique, every entry is filed under its own [userId], the
    room is not empty, and a non-null host is a member. *)
Record room_ok (room : RoomState) : Prop := {
  ok_nodup : NoDup (JsMap.keys (members room));
  ok_keyed : Forall (λ kv, userId kv.2 = kv.1) (members room);
  ok_nonempty : members room ≠ [];
  ok_host : ∀ h, hostUserId room = Some h → h ∈ JsMap.keys (members room);
}.

Definition store_ok (rs : gmap string RoomState) : Prop :=
  map_Forall (λ _ room, room_ok room) rs.

(** ** Traces *)

(** The world a trace leads to from [init] ([init] itself when the trace
    cannot run), and a room of it. *)
Definition final_world (es : list event) : World :=
  match run init es with Some (w, _) => w | None => init end.

Definition room_of (w : World) (r : string) : option RoomState :=
  rooms (server w) !! r.

Definition room_at (es : list event) (r : string) : RoomState :=
  default (new_room 0) (room_of (final_world es) r).

(** The member record [join_room] files for [uid] in a room whose member
    list was [ms]. *)
Definition joined_member (sid uid : string) (uname : option string) (clk : Clock)
  (ms : list (string * Member)) : Member :=
  {| userId := uid;
     username := if truthy uname then default "" uname else "Anonymous";
     socketId := sid;
     joinedAt := match JsMap.get uid ms with
                 | Some m => joinedAt m
                 | None => now_joinedAt clk
                 end |}.

(** A join to room [rid] as user [uid]: the connection it comes from, the
    display name it carries and the clock it is handled at. *)
Definition join_event (rid uid : string) (j : string * option string * Clock) : event :=
  Recv j.1.1 (JoinRoom (Some rid) (Some uid) j.1.2) j.2.

Definition join_events (rid uid : string) (js : list (string * option string * Clock))
  : list event :=
  join_event rid uid <$> js.

(** ** Scenarios *)

(** A clock that does not advance while one handler runs. *)
Definition tick (t : float) (iso : string) : Clock :=
  {| now_getRoom := t; now_joinedAt := iso; now_lastSync := t;
     now_position := t; now_server_time := t |}.

Definition join (sid r u : string) (t : float) (iso : string) : event :=
  Recv sid (JoinRoom (Some r) (Some u) (Some u)) (tick t iso).

Definition alice_conn : Conn :=
  {| currentRoomId := Some "r1"; currentUserId := Some "alice" |}.

Definition alice_member : Member :=
  {| userId := "alice"; username := "alice"; socketId := "s1"; joinedAt := "T1" |}.

Definition bob_member : Member :=
  {| userId := "bob"; username := "bob"; socketId := "s2"; joinedAt := "T2" |}.

Definition alice_update : message :=
  members_update "r1"
    [{| user_id := "alice"; sm_username := "alice"; room_id := "r1"; joined_at := "T1" |}].

(** alice alone in room r1, idle at position 0. *)
Definition alice_alone : list event :=
  [Connect "s1"; join "s1" "r1" "alice" 1000 "T1"].

(** alice has room r1 open in two tabs, s1 then s2. *)
Definition two_tabs : list event :=
  [Connect "s1"; Connect "s2";
   join "s1" "r1" "alice" 1000 "T1";
   join "s2" "r1" "alice" 2000 "T2"].

(** alice opens two tabs on r1 and then leaves through the second one:
    the room is deleted, the first tab stays subscribed to its channel. *)
Definition stale_subscriber : list event :=
  two_tabs ++ [Recv "s2" (LeaveRoom (Some "r1")) (tick 3000 "T3")].

(** alice (host, on s1) and bob (on s2) share room r1. *)
Definition alice_and_bob : list event :=
  [Connect "s1"; Connect "s2";
   join "s1" "r1" "alice" 1000 "T1";
   join "s2" "r1" "bob" 2000 "T2"].

(** A room with two listeners besides the sender. *)
Definition three_listeners : list event :=
  [Connect "s1"; Connect "s2"; Connect "s3";
   join "s1" "r1" "alice" 1000 "T1";
   join "s2" "r1" "bob" 2000 "T2";
   join "s3" "r1" "carol" 3000 "T3"].

(** Three connections are open and bob is in the room; alice then joins
    from s1, from s2, and from s1 again. *)
Definition before_rejoins : list event :=
  [Connect "s1"; Connect "s2"; Connect "s3"; join "s3" "r1" "bob" 500 "T0"].

(** A room that is playing from position 10 s, last synchronised when the
    server clock read 5000 ms. *)
Definition playing_room : RoomState :=
  {| members := [("alice", alice_member)];
     socketToUser := {["s1" := "alice"]};
     hostUserId := Some "alice"; currentSong := None;
     position := Some 10%float; status := Some "playing";
     lastSync := 5000%float |}.

Definition paused_room : RoomState :=
  with_playback None (Some 10%float) (Some "paused") 5000%float playing_room.

(** The same room reached by events: alice joins, presses play at 10 s
    when the clock reads 5000, and asks for the state when the clock,
    set back in the meantime, reads 3000. *)
Definition clock_set_back : list event :=
  [Connect "s1";
   join "s1" "r1" "alice" 1000 "T1";
   Recv "s1" (Play (Some "r1") (Some 10%float)) (tick 5000 "T2");
   Recv "s1" (RequestState (Some "r1")) (tick 3000 "T3")].

(** A vote whose [room_id] is the empty string. *)
Definition client_vote : VoteData :=
  {| vote_room_id := Some ""; vote_poll_id := Some "p1";
     vote_user_id := Some "alice"; vote_song_id := Some "song1" |}.

(** ** The join handler in two steps *)

(** The [if (currentRoomId && currentRoomId !== room_id)] block that
    opens [join_room]. *)
Definition implicit_leave (sid rid : string) (c : Conn) (sv : Server)
  : Conn * Server * list emit :=
  if truthy (currentRoomId c) && bool_decide (currentRoomId c ≠ Some rid)
  then doLeave sid (currentRoomId c) c sv
  else (c, sv, []).

(** The room [join_room] writes back: the upsert of the member, the
    binding of the connection, and the host when there was none. *)
Definition joined_room (sid uid : string) (uname : option string) (clk : Clock)
  (old : RoomState) : RoomState :=
  let room1 :=
    with_members
      (JsMap.set uid (joined_member sid uid uname clk (members old)) (members old))
      (<[sid := uid]> (socketToUser old)) old in
  if negb (truthy (hostUserId room1)) then with_host (Some uid) room1 else room1.

(** The room a departure writes back when members remain. *)
Definition left_room (sid rid : string) (c : Conn) (room : RoomState) : RoomState :=
  (reassign_host rid (departing_user sid c room)
     (remove_member sid (departing_user sid c room) room)).1.

(** ** Host order *)

(** Every key is a non-empty string and the host is the first member in
    enumeration order. *)
Record host_first (room : RoomState) : Prop := {
  hf_keys : Forall (λ kv, kv.1 ≠ "") (members room);
  hf_host : hostUserId room = head (JsMap.keys (members room));
}.

(** ** Client payloads (services/socket.ts) *)

(** The payload of [emitVote]: [{ poll_id, user_id, song_id }]. *)
Definition emitVote (pollId userId songId : string) : VoteData :=
  {| vote_room_id := None; vote_poll_id := Some pollId;
     vote_user_id := Some userId; vote_song_id := Some songId |}.

(** ** Reading emits *)

Definition is_members_update (e : emit) : option (string * list SerializedMember) :=
  match e with
  | Emit _ (members_update r ms) => Some (r, ms)
  | _ => None
  end.

(** The playback fields of a room. *)
Definition playback (room : RoomState)
  : option Song * option float * option string * float :=
  (currentSong room, position room, status room, lastSync room).

(** ** Reading messages *)

(** The room id an inbound payload names. *)
Definition room_id_of (m : inbound) : option string :=
  match m with
  | JoinRoom r _ _ | RequestState r | SyncPosition r _ _ _ | Play r _ | Pause r _
  | SongChange r _ | NextSong r | LeaveRoom r => r
  | Vote d => vote_room_id d
  end.

Definition is_join (m : inbound) : bool :=
  match m with JoinRoom _ _ _ => true | _ => false end.

Definition is_leave (m : inbound) : bool :=
  match m with LeaveRoom _ => true | _ => false end.

(** The messages that are relayed from one connection to the rest of a
    room. *)
Definition is_relay (msg : message) : bool :=
  match msg with
  | sync_position _ _ _ _ | song_change _ _ | next_song _ | vote _ => true
  | _ => false
  end.

(** The [room_state] snapshot of a room, as [join_room] and
    [request_state] build it. *)
Definition snapshot (rid : string) (room : RoomState) (clk : Clock) : message :=
  room_state rid (currentSong room) (getCurrentPosition room (now_position clk))
    (status room) (now_server_time clk) (serializeMembers room rid).

(** The message a transport or vote payload is relayed as, if any. *)
Definition relay_msg (m : inbound) (clk : Clock) : option message :=
  match m with
  | SyncPosition r p s _ => Some (sync_position r p s (now_server_time clk))
  | Play r p => Some (sync_position r p (Some "playing") (now_server_time clk))
  | Pause r p => Some (sync_position r p (Some "paused") (now_server_time clk))
  | SongChange r s => Some (song_change r s)
  | NextSong r => Some (next_song r)
  | Vote d => if truthy (vote_room_id d) then Some (vote d) else None
  | JoinRoom _ _ _ | RequestState _ | LeaveRoom _ => None
  end.

(** alice joins r1 and presses play at 10 s when the clock reads 2000; a
    second connection is open. *)
Definition playing_session : list event :=
  [Connect "s1"; Connect "s2";
   join "s1" "r1" "alice" 1000 "T1";
   Recv "s1" (Play (Some "r1") (Some 10%float)) (tick 2000 "T2")].

(** ** Room ids and connection ids *)






(** alice and bob share r1, carol is alone in r2. *)
Definition two_rooms : list event :=
  [Connect "s1"; Connect "s2"; Connect "s3";
   join "s1" "r1" "alice" 1000 "T1";
   join "s2" "r1" "bob" 2000 "T2";
   join "s3" "r2" "carol" 3000 "T3"].



(** ** Events with and without a payload *)

(** The nine events the connection handler listens to. *)
Inductive event_name :=
| join_room_event | request_state_event | sync_position_event | play_event
| pause_event | song_change_event | next_song_event | vote_event | leave_room_event.

(** What a client sends: an event with a payload object, or the bare
    event name.  Every handler destructures its argument or reads a field
    of it ([event.room_id], [data.room_id]) before anything else, so
    without a payload it throws at once. *)
Inductive packet :=
| WithPayload (m : inbound)
| NoPayload (name : event_name).

Definition receive (sid : string) (p : packet) (clk : Clock) (c : Conn) (sv : Server)
  : outcome :=
  match p with
  | WithPayload m => handle sid m clk c sv
  | NoPayload _ => Threw "TypeError" c sv []
  end.

(** * Properties *)

(** ** The ordered map *)

Section JsMapFacts.
Context {V : Type}.
Implicit Types (k : string) (v : V) (m : list (string * V)).

Lemma get_elem_of k m : is_Some (JsMap.get k m) ↔ k ∈ JsMap.keys m.
Proof.
  unfold JsMap.keys. induction m as [|[k' v'] m IH]; simpl.
  - split; [intros [? ?]; discriminate | intros H; inversion H].
  - destruct (decide (k = k')) as [->|Hne].
    + split; [intros _; left | eauto].
    + rewrite IH. split; [by right | ].
      intros H. apply elem_of_cons in H as [?|?]; [congruence | done].
Qed.

Lemma get_None k m : JsMap.get k m = None ↔ k ∉ JsMap.keys m.
Proof. rewrite <- get_elem_of, eq_None_not_Some. done. Qed.

Lemma has_true k m : JsMap.has k m = true ↔ k ∈ JsMap.keys m.
Proof.
  rewrite <- get_elem_of. unfold JsMap.has.
  destruct (JsMap.get k m); split; eauto; try discriminate.
  intros [? ?]; discriminate.
Qed.

Lemma get_elem k v m : JsMap.get k m = Some v → (k, v) ∈ m.
Proof.
  induction m as [|[k' v'] m IH]; simpl; [discriminate|].
  destruct (decide (k = k')) as [->|Hne].
  - intros [= ->]. left.
  - intros H. right. auto.
Qed.

Lemma get_set_eq k v m : JsMap.get k (JsMap.set k v m) = Some v.
Proof.
  induction m as [|[k' v'] m IH]; simpl.
  - by rewrite decide_True.
  - destruct (decide (k = k')) as [->|Hne]; simpl.
    + by rewrite decide_True.
    + by rewrite decide_False.
Qed.

Lemma get_set_ne k k' v m : k ≠ k' → JsMap.get k' (JsMap.set k v m) = JsMap.get k' m.
Proof.
  intros Hne. induction m as [|[k0 v0] m IH]; simpl.
  - by rewrite decide_False.
  - destruct (decide (k = k0)) as [->|Hne0]; simpl.
    + by rewrite !decide_False.
    + by rewrite IH.
Qed.

(** [Map.set] keeps the position of an existing key and appends a new one. *)
Lemma keys_set k v m :
  JsMap.keys (JsMap.set k v m) =
  if JsMap.has k m then JsMap.keys m else JsMap.keys m ++ [k].
Proof.
  unfold JsMap.has, JsMap.keys. induction m as [|[k0 v0] m IH]; csimpl; [done|].
  destruct (decide (k = k0)) as [->|Hne]; csimpl; [done|].
  rewrite IH. by destruct (JsMap.get k m).
Qed.

Lemma set_nonempty k v m : JsMap.set k v m ≠ [].
Proof. destruct m as [|[k0 v0] m]; simpl; [done|]. by destruct (decide (k = k0)). Qed.

Lemma set_nodup k v m : NoDup (JsMap.keys m) → NoDup (JsMap.keys (JsMap.set k v m)).
Proof.
  intros Hnd. rewrite keys_set. destruct (JsMap.has k m) eqn:Hhas; [done|].
  apply NoDup_app. split; [done|]. split; [|apply NoDup_singleton].
  intros x Hx Hx'. apply list_elem_of_singleton in Hx' as ->.
  apply has_true in Hx. congruence.
Qed.

Lemma elem_of_set k v m k' v' :
  (k', v') ∈ JsMap.set k v m → (k', v') = (k, v) ∨ (k', v') ∈ m.
Proof.
  induction m as [|[k0 v0] m IH]; simpl.
  - intros H. apply list_elem_of_singleton in H. by left.
  - destruct (decide (k = k0)) as [->|Hne]; intros H;
      apply elem_of_cons in H as [H|H]; auto.
    + right. by right.
    + right. rewrite H. left.
    + destruct (IH H); auto. right. by right.
Qed.

Lemma keys_delete k m x : x ∈ JsMap.keys (JsMap.delete k m) ↔ x ∈ JsMap.keys m ∧ x ≠ k.
Proof.
  unfold JsMap.keys, JsMap.delete. rewrite !list_elem_of_fmap. split.
  - intros [[k0 v0] [-> H]]. apply list_elem_of_filter in H as [H1 H2].
    split; [exists (k0, v0) | ]; done.
  - intros [[[k0 v0] [-> H]] Hne]. exists (k0, v0). split; [done|].
    apply list_elem_of_filter. done.
Qed.

Lemma delete_nodup k m : NoDup (JsMap.keys m) → NoDup (JsMap.keys (JsMap.delete k m)).
Proof.
  unfold JsMap.keys, JsMap.delete. induction m as [|[k0 v0] m IH]; simpl; [done|].
  intros Hnd. apply NoDup_cons in Hnd as [Hnotin Hnd].
  rewrite filter_cons. simpl. destruct (decide (k0 ≠ k)); simpl; [|auto].
  apply NoDup_cons. split; [|auto].
  intros Hin. apply Hnotin.
  apply (keys_delete k m k0) in Hin. apply Hin.
Qed.

Lemma delete_subseteq k m : JsMap.delete k m ⊆ m.
Proof. intros x Hx. unfold JsMap.delete in Hx. by apply list_elem_of_filter in Hx as [_ ?]. Qed.

Lemma get_delete_eq k m : JsMap.get k (JsMap.delete k m) = None.
Proof. apply get_None. rewrite keys_delete. tauto. Qed.

(** With unique keys, an entry is found under its key. *)
Lemma elem_get k v m : NoDup (JsMap.keys m) → (k, v) ∈ m → JsMap.get k m = Some v.
Proof.
  unfold JsMap.keys. induction m as [|[k0 v0] m IH]; simpl; intros Hnd Hin.
  - inversion Hin.
  - apply NoDup_cons in Hnd as [Hnotin Hnd].
    apply elem_of_cons in Hin as [[= -> ->]|Hin].
    + by rewrite decide_True.
    + rewrite decide_False; [auto|]. intros ->. apply Hnotin.
      apply list_elem_of_fmap. by exists (k0, v).
Qed.

Lemma filter_key_absent k m :
  k ∉ JsMap.keys m → filter (λ kv, kv.1 = k) m = [].
Proof.
  unfold JsMap.keys. induction m as [|[k0 v0] m IH]; csimpl; intros Hnotin; [done|].
  apply not_elem_of_cons in Hnotin as [Hne Hnotin].
  rewrite filter_cons_False by (simpl; congruence). auto.
Qed.

(** With unique keys, exactly one entry is filed under a key that is set. *)
Lemma filter_key_unique k v m :
  NoDup (JsMap.keys m) → JsMap.get k m = Some v →
  filter (λ kv, kv.1 = k) m = [(k, v)].
Proof.
  unfold JsMap.keys. induction m as [|[k0 v0] m IH]; simpl; intros Hnd Hget.
  - discriminate.
  - apply NoDup_cons in Hnd as [Hnotin Hnd]. rewrite filter_cons. simpl.
    destruct (decide (k = k0)) as [->|Hne].
    + injection Hget as ->. rewrite decide_True by done. f_equal.
      by apply filter_key_absent.
    + rewrite decide_False by congruence. auto.
Qed.
End JsMapFacts.

(** ** Preservation of well-formedness *)

Lemma store_ok_insert rs r room :
  store_ok rs → room_ok room → store_ok (<[r := room]> rs).
Proof. intros Hrs Hroom. by apply map_Forall_insert_2. Qed.

Lemma store_ok_delete rs r : store_ok rs → store_ok (delete r rs).
Proof. intros Hrs. by apply map_Forall_delete. Qed.

Lemma store_ok_lookup rs r room : store_ok rs → rs !! r = Some room → room_ok room.
Proof. intros Hrs Hr. exact (Hrs r room Hr). Qed.

Lemma rooms_get_Some room_id rs room :
  rooms_get room_id rs = Some room → ∃ r, room_id = Some r ∧ rs !! r = Some room.
Proof. destruct room_id as [r|]; simpl; [eauto | discriminate]. Qed.

(** A transport update touches neither the members nor the host. *)
Lemma update_room_ok room_id f sv :
  (∀ room, members (f room) = members room ∧ hostUserId (f room) = hostUserId room) →
  store_ok (rooms sv) → store_ok (rooms (update_room room_id f sv)).
Proof.
  intros Hf Hok. unfold update_room.
  destruct room_id as [rid|]; [|done].
  destruct (rooms_get (Some rid) (rooms sv)) as [room|] eqn:Hget; [|done].
  simpl in *. apply store_ok_insert; [done|].
  destruct (Hf room) as [Hm Hh]. destruct (store_ok_lookup _ _ _ Hok Hget).
  constructor; rewrite ?Hm, ?Hh; done.
Qed.

(** What [remove_member] does to the member list: nothing, or the removal
    of the departing user's entry, which named this connection. *)
Lemma remove_member_cases sid user room :
  hostUserId (remove_member sid user room) = hostUserId room ∧
  (members (remove_member sid user room) = members room ∨
   ∃ u m, user = Some u ∧ JsMap.get u (members room) = Some m ∧ socketId m = sid ∧
          members (remove_member sid user room) = JsMap.delete u (members room)).
Proof.
  unfold remove_member. destruct user as [u|]; [|auto].
  destruct (truthy (Some u)); [|auto]. simpl. split; [done|].
  destruct (JsMap.get u (members room)) as [m|] eqn:Hget; [|auto].
  case_bool_decide; [|auto]. right. by exists u, m.
Qed.

Lemma remove_member_ok sid user room :
  room_ok room → members (remove_member sid user room) ≠ [] →
  NoDup (JsMap.keys (members (remove_member sid user room))) ∧
  Forall (λ kv, userId kv.2 = kv.1) (members (remove_member sid user room)) ∧
  (hostUserId room ≠ user →
   ∀ h, hostUserId room = Some h → h ∈ JsMap.keys (members (remove_member sid user room))).
Proof.
  intros [Hnd Hkeyed _ Hhost] _.
  destruct (remove_member_cases sid user room) as [_ [->|(u & m & -> & Hget & Hsid & ->)]].
  - auto.
  - split; [by apply delete_nodup|]. split.
    + rewrite Forall_forall in Hkeyed |- *. intros kv Hin.
      by apply Hkeyed, (delete_subseteq u).
    + intros Hne h Hh. apply keys_delete. split; [auto | congruence].
Qed.

Lemma head_value_key (ms : list (string * Member)) newHost rest :
  Forall (λ kv, userId kv.2 = kv.1) ms → JsMap.values ms = newHost :: rest →
  userId newHost ∈ JsMap.keys ms.
Proof.
  destruct ms as [|[k m] ms]; [discriminate|].
  intros Hkeyed [= <- _]. apply Forall_cons in Hkeyed as [Hk _].
  simpl in Hk. rewrite Hk. left.
Qed.

Lemma reassign_host_members rid user room :
  members (reassign_host rid user room).1 = members room.
Proof.
  unfold reassign_host. case_bool_decide; [|done].
  by destruct (JsMap.values (members room)).
Qed.

Lemma leave_room_ok sid rid user room :
  room_ok room → members (remove_member sid user room) ≠ [] →
  room_ok (reassign_host rid user (remove_member sid user room)).1.
Proof.
  intros Hok Hne. destruct (remove_member_ok sid user room Hok Hne) as (Hnd & Hkeyed & Hhost).
  destruct (remove_member_cases sid user room) as [Hh _].
  constructor; rewrite ?reassign_host_members; try done.
  unfold reassign_host. rewrite Hh. case_bool_decide as Heq.
  - destruct (JsMap.values _) as [|newHost rest] eqn:Hvals; simpl; [done|].
    intros h [= <-]. by eapply head_value_key.
  - simpl. rewrite Hh. by apply Hhost.
Qed.

Lemma doLeave_ok sid roomId c sv :
  store_ok (rooms sv) → store_ok (rooms (doLeave sid roomId c sv).1.2).
Proof.
  intros Hok. unfold doLeave.
  destruct roomId as [rid|]; [|done].
  destruct (rooms_get (Some rid) (rooms sv)) as [room|] eqn:Hget; [|done].
  simpl in Hget. pose proof (store_ok_lookup _ _ _ Hok Hget) as Hroom.
  case_bool_decide as Hsize.
  - simpl. by apply store_ok_delete.
  - destruct (reassign_host _ _ _) as [room2 promoted] eqn:Hre. simpl.
    apply store_ok_insert; [done|].
    replace room2 with (reassign_host rid (departing_user sid c room)
                          (remove_member sid (departing_user sid c room) room)).1
      by (by rewrite Hre).
    apply leave_room_ok; [done|].
    intros Hnil. apply Hsize. unfold JsMap.size. by rewrite Hnil.
Qed.

(** The upsert of [join_room] on a room that is well-formed except that
    it may still be empty (a room [getRoom] has just created). *)
Lemma upsert_ok uid member stu room :
  userId member = uid →
  NoDup (JsMap.keys (members room)) →
  Forall (λ kv, userId kv.2 = kv.1) (members room) →
  (∀ h, hostUserId room = Some h → h ∈ JsMap.keys (members room)) →
  let room1 := with_members (JsMap.set uid member (members room)) stu room in
  room_ok (if negb (truthy (hostUserId room1)) then with_host (Some uid) room1
           else room1).
Proof.
  intros Huid Hnd Hkeyed Hhost room1.
  assert (Hin : uid ∈ JsMap.keys (JsMap.set uid member (members room))).
  { apply get_elem_of. rewrite get_set_eq. eauto. }
  assert (Hsub : ∀ h, h ∈ JsMap.keys (members room) →
                      h ∈ JsMap.keys (JsMap.set uid member (members room))).
  { intros h Hh. rewrite keys_set. destruct (JsMap.has uid (members room)); [done|].
    apply elem_of_app. by left. }
  assert (Hkeyed' : Forall (λ kv, userId kv.2 = kv.1) (JsMap.set uid member (members room))).
  { rewrite Forall_forall in Hkeyed |- *. intros [k m] Hkm.
    apply elem_of_set in Hkm as [[= -> ->]|Hkm]; [done | by apply Hkeyed]. }
  destruct (negb (truthy (hostUserId room1))); constructor; simpl;
    try (by apply set_nodup); try done; try apply set_nonempty.
  - by intros h [= <-].
  - intros h Hh. by apply Hsub, Hhost.
Qed.

Lemma getRoom_lookup rid now rs :
  (getRoom rid now rs).1 !! rid = Some (getRoom rid now rs).2.
Proof.
  unfold getRoom. destruct (rs !! rid) eqn:Hr; simpl; [done|]. by rewrite lookup_insert_eq.
Qed.

Lemma getRoom_pre_ok rid now rs :
  store_ok rs →
  let room := (getRoom rid now rs).2 in
  NoDup (JsMap.keys (members room)) ∧
  Forall (λ kv, userId kv.2 = kv.1) (members room) ∧
  (∀ h, hostUserId room = Some h → h ∈ JsMap.keys (members room)).
Proof.
  intros Hok. unfold getRoom. destruct (rs !! rid) as [room|] eqn:Hr; simpl.
  - destruct (store_ok_lookup _ _ _ Hok Hr). auto.
  - split; [apply NoDup_nil_2|]. split; [apply Forall_nil_2 | discriminate].
Qed.

Lemma getRoom_insert rid now rs room :
  <[rid := room]> (getRoom rid now rs).1 = <[rid := room]> rs.
Proof.
  unfold getRoom. destruct (rs !! rid); simpl; [done|]. by rewrite insert_insert_eq.
Qed.

Lemma on_join_room_ok sid room_id user_id uname clk c sv :
  store_ok (rooms sv) →
  store_ok (rooms (outcome_server (on_join_room sid room_id user_id uname clk c sv))).
Proof.
  intros Hok. unfold on_join_room.
  destruct room_id as [rid|]; [|done]. destruct user_id as [uid|]; [|done].
  destruct (negb (truthy (Some rid)) || negb (truthy (Some uid))); [done|].
  set (pre := if truthy (currentRoomId c) && bool_decide (currentRoomId c ≠ Some rid)
              then doLeave sid (currentRoomId c) c sv else (c, sv, [])).
  assert (Hpre : store_ok (rooms pre.1.2)).
  { unfold pre. destruct (_ && _); [by apply doLeave_ok | done]. }
  destruct pre as [[c1 sv1] out1]. simpl in Hpre.
  destruct (getRoom rid (now_getRoom clk) (rooms sv1)) as [rooms2 room] eqn:Hg.
  simpl.
  replace rooms2 with (getRoom rid (now_getRoom clk) (rooms sv1)).1 by (by rewrite Hg).
  rewrite getRoom_insert. apply store_ok_insert; [done|].
  pose proof (getRoom_pre_ok rid (now_getRoom clk) (rooms sv1) Hpre) as Hroom.
  rewrite Hg in Hroom. simpl in Hroom. destruct Hroom as (Hnd & Hkeyed & Hhost).
  by apply upsert_ok.
Qed.

Lemma handle_ok sid m clk c sv :
  store_ok (rooms sv) → store_ok (rooms (outcome_server (handle sid m clk c sv))).
Proof.
  intros Hok. destruct m as [r u n|r|r p s t|r p|r p|r s|r|d|r]; simpl.
  - by apply on_join_room_ok.
  - unfold on_request_state. destruct r; [|done]. by destruct (rooms_get _ _).
  - by apply update_room_ok.
  - unfold on_play, on_transport.
    destruct r, p; cbn [outcome_server]; by apply update_room_ok.
  - unfold on_pause, on_transport.
    destruct r, p; cbn [outcome_server]; by apply update_room_ok.
  - unfold on_song_change. destruct s, r; cbn [outcome_server]; by apply update_room_ok.
  - by apply update_room_ok.
  - unfold on_vote. by destruct (truthy _).
  - unfold on_leave_room. pose proof (doLeave_ok sid r c sv Hok) as H.
    by destruct (doLeave sid r c sv) as [[c' sv'] out].
Qed.

Lemma step_ok w e w' out :
  store_ok (rooms (server w)) → step w e = Some (w', out) →
  store_ok (rooms (server w')).
Proof.
  intros Hok. destruct e as [sid|sid m clk|sid]; simpl.
  - destruct (conns w !! sid); [discriminate|]. by intros [= <- _].
  - destruct (conns w !! sid) as [c|]; [|discriminate].
    pose proof (handle_ok sid m clk c (server w) Hok) as H.
    destruct (handle sid m clk c (server w)); [|discriminate].
    by intros [= <- _].
  - destruct (conns w !! sid) as [c|]; [|discriminate].
    unfold on_disconnect. destruct (truthy (currentRoomId c)).
    + set (sv0 := {| rooms := rooms (server w); channels := _ |}).
      pose proof (doLeave_ok sid (currentRoomId c) c sv0 Hok) as H.
      destruct (doLeave sid (currentRoomId c) c sv0) as [[c' sv'] out'].
      by intros [= <- _].
    + by intros [= <- _].
Qed.

Lemma run_ok es : ∀ w w' out,
  store_ok (rooms (server w)) → run w es = Some (w', out) →
  store_ok (rooms (server w')).
Proof.
  induction es as [|e es IH]; simpl; intros w w' out Hok Hrun.
  - by injection Hrun as <- _.
  - destruct (step w e) as [[w1 out1]|] eqn:Hstep; [|discriminate].
    destruct (run w1 es) as [[w2 out2]|] eqn:Hrest; [|discriminate].
    injection Hrun as <- _. eapply IH; [|done]. by eapply step_ok.
Qed.

Lemma reachable_ok w : reachable w → store_ok (rooms (server w)).
Proof.
  intros (es & out & Hrun). eapply run_ok; [|done].
  simpl. apply map_Forall_empty.
Qed.

(** ** Playback clock *)

(** C1, as stated, fails: while playing, the elapsed term is not clamped.
    With [lastSync] = 5000 ms and the clock reading 3000 ms, the read
    returns 10 + (3000 - 5000) / 1000 = 8 s, below the stored 10 s; the
    same value goes out in the [room_state] reply to [request_state]. *)
Lemma getCurrentPosition_not_clamped :
  status playing_room = Some "playing" ∧
  position playing_room = Some 10%float ∧
  getCurrentPosition playing_room 3000 = Some 8%float ∧
  (8 <? 10)%float = true ∧
  snd <$> run init clock_set_back =
    Some [Emit (io_to "r1")
            (members_update "r1"
               [{| user_id := "alice"; sm_username := "alice";
                   room_id := "r1"; joined_at := "T1" |}]);
          Emit (socket_emit "s1")
            (room_state "r1" None (Some 0%float) (Some "idle") 1000
               [{| user_id := "alice"; sm_username := "alice";
                   room_id := "r1"; joined_at := "T1" |}]);
          Emit (socket_to "s1" (Some "r1"))
            (sync_position (Some "r1") (Some 10%float) (Some "playing") 5000);
          Emit (socket_emit "s1")
            (room_state "r1" None (Some 8%float) (Some "playing") 3000
               [{| user_id := "alice"; sm_username := "alice";
                   room_id := "r1"; joined_at := "T1" |}])].
Proof. repeat split; vm_compute; reflexivity. Qed.

(** C1 (amended): for every room and every clock reading [now], the read
    returns the stored position unchanged when the status is paused or
    idle (indeed whenever it is not "playing"), and when the status is
    playing it returns position + (now - lastSync) / 1000 in double
    arithmetic, with no clamp on the elapsed term.  The read returns a
    number only: the handler that consists of it, [request_state], leaves
    the whole server state as it was. *)
Theorem getCurrentPosition_spec (room : RoomState) (now : float) :
  (status room ≠ Some "playing" → getCurrentPosition room now = position room) ∧
  (status room = Some "paused" ∨ status room = Some "idle" →
   getCurrentPosition room now = position room) ∧
  (∀ p, status room = Some "playing" → position room = Some p →
        getCurrentPosition room now = Some (p + (now - lastSync room) / 1000)%float) ∧
  (∀ sid r clk c sv,
     outcome_server (on_request_state sid r clk c sv) = sv ∧
     outcome_conn (on_request_state sid r clk c sv) = c).
Proof.
  unfold getCurrentPosition. repeat split.
  - intros Hst. by rewrite bool_decide_true.
  - intros [Hst|Hst]; rewrite Hst; by rewrite bool_decide_true.
  - intros p Hst Hp. rewrite Hst, Hp. by rewrite bool_decide_false by (by intros []).
  - unfold on_request_state. destruct r; [|done]. by destruct (rooms_get _ _).
  - unfold on_request_state. destruct r; [|done]. by destruct (rooms_get _ _).
Qed.

Lemma getCurrentPosition_spec_witness :
  getCurrentPosition (new_room 1000) 9000 = Some 0%float ∧
  getCurrentPosition paused_room 9000 = Some 10%float ∧
  getCurrentPosition playing_room 9000 = Some 14%float.
Proof.
  split; [|split].
  - apply (proj1 (getCurrentPosition_spec (new_room 1000) 9000)). discriminate.
  - apply (proj1 (proj2 (getCurrentPosition_spec paused_room 9000))).
    left. reflexivity.
  - apply (proj1 (proj2 (proj2 (getCurrentPosition_spec playing_room 9000))) 10%float);
      reflexivity.
Defined.

(** ** Transport events *)

(** C5: [play] on a room of the store sets its position to the payload's,
    its status to playing and its [lastSync] to the server's clock as read
    on receipt (the payload carries no timestamp), and emits exactly one
    [sync_position] with that position, status playing and [server_time]
    read from the server's clock, which reaches every connection
    subscribed to the room except the sender. *)
Theorem play_updates_and_relays sid rid p clk c sv room :
  rooms sv !! rid = Some room →
  ∃ room',
    on_play sid (Some rid) (Some p) clk c sv =
      Returned c {| rooms := <[rid := room']> (rooms sv); channels := channels sv |}
        [Emit (socket_to sid (Some rid))
           (sync_position (Some rid) (Some p) (Some "playing") (now_server_time clk))] ∧
    position room' = Some p ∧ status room' = Some "playing" ∧
    lastSync room' = now_lastSync clk ∧
    members room' = members room ∧ hostUserId room' = hostUserId room ∧
    currentSong room' = currentSong room ∧
    (∀ x, x ∈ recipients (channels sv) (socket_to sid (Some rid)) ↔
          x ∈ channel (channels sv) rid ∧ x ≠ sid).
Proof.
  intros Hroom.
  exists (with_playback (currentSong room) (Some p) (Some "playing") (now_lastSync clk) room).
  split.
  - unfold on_play, on_transport, update_room. simpl. by rewrite Hroom.
  - do 6 (split; [done|]). intros x. simpl.
    by rewrite elem_of_difference, elem_of_singleton.
Qed.

Lemma play_updates_and_relays_witness :
  ∃ room',
    on_play "s1" (Some "r1") (Some 42.5%float) (tick 7000 "T7")
      {| currentRoomId := Some "r1"; currentUserId := Some "alice" |}
      (server (final_world three_listeners)) =
      Returned {| currentRoomId := Some "r1"; currentUserId := Some "alice" |}
        {| rooms := <["r1" := room']> (rooms (server (final_world three_listeners)));
           channels := channels (server (final_world three_listeners)) |}
        [Emit (socket_to "s1" (Some "r1"))
           (sync_position (Some "r1") (Some 42.5%float) (Some "playing") 7000)] ∧
    position room' = Some 42.5%float ∧ status room' = Some "playing" ∧
    lastSync room' = 7000%float ∧
    elements (recipients (channels (server (final_world three_listeners)))
                (socket_to "s1" (Some "r1"))) ≡ₚ ["s2"; "s3"].
Proof.
  destruct (play_updates_and_relays "s1" "r1" 42.5%float (tick 7000 "T7")
              {| currentRoomId := Some "r1"; currentUserId := Some "alice" |}
              (server (final_world three_listeners))
              (room_at three_listeners "r1"))
    as (room' & Hplay & Hpos & Hst & Hsync & _).
  { vm_compute. reflexivity. }
  exists room'. repeat split; try assumption.
  vm_compute. by apply Permutation_swap.
Defined.

(** ** Payloads with missing or unexpected fields *)

(** C7 on the code: a [join_room] without [user_id] is dropped, but a
    [play] whose payload lacks [position] is not.  The handler has no
    guard: it stores [undefined] as the room's position, sets the status
    to playing and [lastSync] to the clock, relays a [sync_position]
    without position to the room, and then throws a TypeError from
    [position.toFixed(2)], which nothing catches. *)
Theorem play_without_position_mutates_and_throws :
  fst <$> run init alice_alone = Some (final_world alice_alone) ∧
  handle "s1" (JoinRoom (Some "r1") None (Some "alice")) (tick 9000 "T9")
    alice_conn (server (final_world alice_alone)) =
    Returned alice_conn (server (final_world alice_alone)) [] ∧
  room_of (final_world alice_alone) "r1" =
    Some {| members := [("alice", alice_member)];
            socketToUser := {["s1" := "alice"]};
            hostUserId := Some "alice"; currentSong := None;
            position := Some 0%float; status := Some "idle";
            lastSync := 1000%float |} ∧
  handle "s1" (Play (Some "r1") None) (tick 9000 "T9")
    alice_conn (server (final_world alice_alone)) =
    Threw "TypeError" alice_conn
      {| rooms :=
           {["r1" := {| members := [("alice", alice_member)];
                        socketToUser := {["s1" := "alice"]};
                        hostUserId := Some "alice"; currentSong := None;
                        position := None; status := Some "playing";
                        lastSync := 9000%float |}]};
         channels := channels (server (final_world alice_alone)) |}
      [Emit (socket_to "s1" (Some "r1"))
         (sync_position (Some "r1") None (Some "playing") 9000)] ∧
  step (final_world alice_alone) (Recv "s1" (Play (Some "r1") None) (tick 9000 "T9"))
    = None.
Proof. repeat split; vm_compute; reflexivity. Qed.

(** C8 on the code: the heartbeat handler stores the payload's status
    unchecked.  After a [sync_position] with status "buffering" the room's
    status is "buffering", which is none of playing, paused, idle. *)
Theorem heartbeat_stores_arbitrary_status :
  (status <$> room_of (final_world alice_alone) "r1") = Some (Some "idle") ∧
  (λ w, status <$> room_of w "r1") ∘ fst <$>
    run init
      (alice_alone ++
       [Recv "s1" (SyncPosition (Some "r1") (Some 12%float) (Some "buffering") None)
          (tick 9000 "T9")])
    = Some (Some (Some "buffering")) ∧
  Some "buffering" ∉ [Some "playing"; Some "paused"; Some "idle"].
Proof.
  split; [vm_compute; reflexivity|]. split; [vm_compute; reflexivity|].
  intros Hin. repeat (apply elem_of_cons in Hin as [Hin|Hin]; [discriminate|]).
  inversion Hin.
Qed.

(** ** Departure of a connection that is not the member's current one *)

(** C6 on the code: alice has two tabs open on room r1, s1 then s2, so
    her member entry names s2.  When the stale tab s1 leaves (or
    disconnects) the entry stays, as the comment in [doLeave] intends, but
    the host check that follows compares [hostUserId] with the departing
    user whether or not an entry was removed: alice is the host, so a
    [promoted_to_host] goes to s2 and a [members_update] to the room. *)
Theorem stale_tab_departure_promotes :
  fst <$> run init two_tabs = Some (final_world two_tabs) ∧
  (socketId <$> (room_of (final_world two_tabs) "r1" ≫= λ room,
                 JsMap.get "alice" (members room))) = Some "s2" ∧
  snd <$> step (final_world two_tabs) (Recv "s1" (LeaveRoom (Some "r1")) (tick 3000 "T3"))
    = Some [Emit (io_to "s2") (promoted_to_host "r1"); Emit (io_to "r1") alice_update] ∧
  snd <$> step (final_world two_tabs) (Disconnect "s1")
    = Some [Emit (io_to "s2") (promoted_to_host "r1"); Emit (io_to "r1") alice_update] ∧
  (members <$> room_of (final_world (two_tabs ++ [Disconnect "s1"])) "r1") =
  (members <$> room_of (final_world two_tabs) "r1").
Proof. repeat split; vm_compute; reflexivity. Qed.

(** ** Events that name a room the store does not hold *)

(** C10, as stated, fails on two points.  The broadcast channel of a room
    the store does not hold need not be empty: after [stale_subscriber]
    the store has no r1, yet s1 is still subscribed and receives the
    relayed [play] of s2.  And [vote] relays only when its [room_id] is
    truthy: with the empty string nothing is emitted. *)
Lemma relay_to_deleted_room_is_delivered :
  fst <$> run init stale_subscriber = Some (final_world stale_subscriber) ∧
  room_of (final_world stale_subscriber) "r1" = None ∧
  elements (recipients (channels (server (final_world stale_subscriber)))
              (socket_to "s2" (Some "r1"))) = ["s1"] ∧
  snd <$> step (final_world stale_subscriber)
            (Recv "s2" (Play (Some "r1") (Some 42.5%float)) (tick 4000 "T4")) =
    Some [Emit (socket_to "s2" (Some "r1"))
            (sync_position (Some "r1") (Some 42.5%float) (Some "playing") 4000)] ∧
  room_of (final_world stale_subscriber) "" = None ∧
  on_vote "s2" client_vote alice_conn (server (final_world stale_subscriber)) =
    Returned alice_conn (server (final_world stale_subscriber)) [].
Proof. repeat split; vm_compute; reflexivity. Qed.

Lemma update_room_absent rid f sv :
  rooms sv !! rid = None → update_room (Some rid) f sv = sv.
Proof. intros Hnone. unfold update_room. simpl. by rewrite Hnone. Qed.

(** C10 (amended): a play, pause, sync_position, song_change or next_song
    event naming a room id the store does not hold, and a vote naming a
    non-empty such id, leaves the server state as it was (no room is
    created) and still emits its relay, addressed to that room id's
    broadcast channel minus the sender; [play] and [pause] without a
    position do so before they throw. *)
Theorem transport_on_unknown_room sid rid clk c sv :
  rooms sv !! rid = None →
  (∀ pos, outcome_server (on_play sid (Some rid) pos clk c sv) = sv ∧
          outcome_emits (on_play sid (Some rid) pos clk c sv) =
            [Emit (socket_to sid (Some rid))
               (sync_position (Some rid) pos (Some "playing") (now_server_time clk))]) ∧
  (∀ pos, outcome_server (on_pause sid (Some rid) pos clk c sv) = sv ∧
          outcome_emits (on_pause sid (Some rid) pos clk c sv) =
            [Emit (socket_to sid (Some rid))
               (sync_position (Some rid) pos (Some "paused") (now_server_time clk))]) ∧
  (∀ pos st t, on_sync_position sid (Some rid) pos st t clk c sv =
     Returned c sv [Emit (socket_to sid (Some rid))
                      (sync_position (Some rid) pos st (now_server_time clk))]) ∧
  (∀ song, on_song_change sid (Some rid) song clk c sv =
     Returned c sv [Emit (socket_to sid (Some rid)) (song_change (Some rid) song)]) ∧
  on_next_song sid (Some rid) clk c sv =
     Returned c sv [Emit (socket_to sid (Some rid)) (next_song (Some rid))] ∧
  (∀ data, vote_room_id data = Some rid → rid ≠ "" →
     on_vote sid data c sv =
     Returned c sv [Emit (socket_to sid (Some rid)) (vote data)]).
Proof.
  intros Hnone.
  split; [|split; [|split; [|split; [|split]]]].
  - intros pos. unfold on_play, on_transport. rewrite update_room_absent by done.
    by destruct pos.
  - intros pos. unfold on_pause, on_transport. rewrite update_room_absent by done.
    by destruct pos.
  - intros pos st t. unfold on_sync_position. by rewrite update_room_absent.
  - intros song. unfold on_song_change. rewrite update_room_absent by done.
    by destruct song.
  - unfold on_next_song. by rewrite update_room_absent.
  - intros data Hdata Hne. unfold on_vote. rewrite Hdata. simpl.
    by rewrite bool_decide_true.
Qed.

Lemma transport_on_unknown_room_witness :
  on_next_song "s2" (Some "r1") (tick 4000 "T4") alice_conn
    (server (final_world stale_subscriber)) =
  Returned alice_conn (server (final_world stale_subscriber))
    [Emit (socket_to "s2" (Some "r1")) (next_song (Some "r1"))] ∧
  on_vote "s2"
    {| vote_room_id := Some "r1"; vote_poll_id := Some "p1";
       vote_user_id := Some "alice"; vote_song_id := Some "song1" |}
    alice_conn (server (final_world stale_subscriber)) =
  Returned alice_conn (server (final_world stale_subscriber))
    [Emit (socket_to "s2" (Some "r1"))
       (vote {| vote_room_id := Some "r1"; vote_poll_id := Some "p1";
                vote_user_id := Some "alice"; vote_song_id := Some "song1" |})].
Proof.
  assert (Hnone : rooms (server (final_world stale_subscriber)) !! "r1" = None)
    by (vm_compute; reflexivity).
  pose proof (transport_on_unknown_room "s2" "r1" (tick 4000 "T4") alice_conn
                (server (final_world stale_subscriber)) Hnone)
    as (_ & _ & _ & _ & Hnext & Hvote).
  split; [exact Hnext|].
  apply Hvote; [reflexivity | discriminate].
Defined.

(** ** Departures *)

Lemma doLeave_other sid r0 c sv rid :
  r0 ≠ Some rid → rooms (doLeave sid r0 c sv).1.2 !! rid = rooms sv !! rid.
Proof.
  intros Hne. unfold doLeave. destruct r0 as [r|]; [|done].
  destruct (rooms_get (Some r) (rooms sv)) as [room|]; [|done].
  assert (r ≠ rid) by congruence.
  case_bool_decide.
  - simpl. by rewrite lookup_delete_ne.
  - destruct (reassign_host _ _ _) as [room2 promoted]. simpl.
    by rewrite lookup_insert_ne.
Qed.

Lemma remove_member_current sid u m room :
  u ≠ "" → JsMap.get u (members room) = Some m → socketId m = sid →
  remove_member sid (Some u) room =
  with_members (JsMap.delete u (members room)) (delete sid (socketToUser room)) room.
Proof.
  intros Hne Hget Hsid. unfold remove_member. simpl.
  rewrite bool_decide_true by done. rewrite Hget. by rewrite bool_decide_true.
Qed.

Lemma final_world_reachable es : is_Some (run init es) → reachable (final_world es).
Proof.
  unfold final_world, reachable. intros [[w out] Hrun]. rewrite Hrun. eauto.
Qed.



(** ** Joins *)

(** The effect of an accepted [join_room] on the room it names: [old] is
    the room as the store held it, or the fresh room [getRoom] creates. *)
Lemma on_join_room_at sid rid uid uname clk c sv :
  rid ≠ "" → uid ≠ "" →
  let old := default (new_room (now_getRoom clk)) (rooms sv !! rid) in
  ∃ sv' out room',
    on_join_room sid (Some rid) (Some uid) uname clk c sv =
      Returned {| currentRoomId := Some rid; currentUserId := Some uid |} sv' out ∧
    rooms sv' !! rid = Some room' ∧
    members room' =
      JsMap.set uid (joined_member sid uid uname clk (members old)) (members old) ∧
    hostUserId room' =
      (if truthy (hostUserId old) then hostUserId old else Some uid).
Proof.
  intros Hrid Huid old. unfold on_join_room. simpl.
  rewrite !bool_decide_true by done. simpl.
  set (pre := if truthy (currentRoomId c) && bool_decide (currentRoomId c ≠ Some rid)
              then doLeave sid (currentRoomId c) c sv else (c, sv, [])).
  assert (Hpre : rooms pre.1.2 !! rid = rooms sv !! rid).
  { unfold pre. destruct (truthy (currentRoomId c)); simpl; [|done].
    case_bool_decide; [by apply doLeave_other | done]. }
  destruct pre as [[c1 sv1] out1]. simpl in Hpre.
  unfold getRoom. rewrite Hpre. subst old.
  destruct (rooms sv !! rid) as [room|] eqn:Hroom; simpl.
  - eexists _, _, _. split; [reflexivity|]. simpl. rewrite lookup_insert_eq.
    split; [reflexivity|].
    unfold joined_member, JsMap.has.
    destruct (JsMap.get uid (members room)); by destruct (truthy (hostUserId room)).
  - eexists _, _, _. split; [reflexivity|]. simpl. rewrite lookup_insert_eq.
    split; [reflexivity|]. done.
Qed.




(** C9: in every reachable state a non-null [hostUserId] is the userId of
    an entry of the room's [members]; and an accepted join to a room whose
    [hostUserId] is null (a room the store holds with no host, or one the
    join creates) makes the joiner the host. *)
Theorem host_is_member :
  (∀ w, reachable w →
     ∀ rid room h, rooms (server w) !! rid = Some room → hostUserId room = Some h →
       ∃ m, JsMap.get h (members room) = Some m ∧ userId m = h) ∧
  (∀ sid rid uid uname clk c sv,
     rid ≠ "" → uid ≠ "" →
     (rooms sv !! rid ≫= hostUserId) = None →
     ∃ sv' out room',
       on_join_room sid (Some rid) (Some uid) uname clk c sv =
         Returned {| currentRoomId := Some rid; currentUserId := Some uid |} sv' out ∧
       rooms sv' !! rid = Some room' ∧
       hostUserId room' = Some uid ∧
       is_Some (JsMap.get uid (members room'))).
Proof.
  split.
  - intros w Hreach rid room h Hroom Hh.
    destruct (store_ok_lookup _ _ _ (reachable_ok w Hreach) Hroom) as [Hnd Hkeyed _ Hhost].
    apply Hhost, get_elem_of in Hh as [m Hm]. exists m. split; [done|].
    rewrite Forall_forall in Hkeyed. exact (Hkeyed (h, m) (get_elem _ _ _ Hm)).
  - intros sid rid uid uname clk c sv Hrid Huid Hnull.
    destruct (on_join_room_at sid rid uid uname clk c sv Hrid Huid)
      as (sv' & out & room' & Hjoin & Hroom' & Hms & Hhost).
    exists sv', out, room'. split; [done|]. split; [done|]. split.
    + rewrite Hhost. destruct (rooms sv !! rid) as [room|]; simpl in *.
      * by rewrite Hnull.
      * done.
    + rewrite Hms, get_set_eq. eauto.
Qed.

Lemma host_is_member_witness :
  (∀ room h, rooms (server (final_world alice_and_bob)) !! "r1" = Some room →
             hostUserId room = Some h →
             ∃ m, JsMap.get h (members room) = Some m ∧ userId m = h) ∧
  (∃ sv' out room',
     on_join_room "s1" (Some "r1") (Some "alice") (Some "alice") (tick 1000 "T1")
       {| currentRoomId := None; currentUserId := None |} (server init) =
       Returned alice_conn sv' out ∧
     rooms sv' !! "r1" = Some room' ∧
     hostUserId room' = Some "alice" ∧
     is_Some (JsMap.get "alice" (members room'))).
Proof.
  destruct host_is_member as (Hinv & Hjoin).
  split.
  - apply Hinv. apply final_world_reachable. vm_compute. eauto.
  - apply Hjoin; [discriminate | discriminate | reflexivity].
Defined.

(** ** Repeated joins *)

Lemma last_cons_default {A} (a d : A) (l : list A) :
  List.last (a :: l) d = List.last l a.
Proof.
  revert a d. induction l as [|b l IH]; intros a d; [done|].
  change (List.last (a :: b :: l) d) with (List.last (b :: l) d).
  by rewrite (IH b d), (IH b a).
Qed.

Lemma join_step w rid uid j w1 out1 :
  store_ok (rooms (server w)) → rid ≠ "" → uid ≠ "" →
  step w (join_event rid uid j) = Some (w1, out1) →
  store_ok (rooms (server w1)) ∧
  ∃ room1 m1,
    rooms (server w1) !! rid = Some room1 ∧
    JsMap.get uid (members room1) = Some m1 ∧
    socketId m1 = j.1.1 ∧
    joinedAt m1 =
      match rooms (server w) !! rid ≫= λ room, JsMap.get uid (members room) with
      | Some m => joinedAt m
      | None => now_joinedAt j.2
      end.
Proof.
  intros Hok Hrid Huid Hstep. split; [by eapply step_ok|].
  unfold join_event in Hstep. cbn [step handle] in Hstep.
  destruct (conns w !! j.1.1) as [c|]; [|discriminate].
  destruct (on_join_room_at j.1.1 rid uid j.1.2 j.2 c (server w) Hrid Huid)
    as (sv' & out & room' & Hjoin & Hroom' & Hms & _).
  rewrite Hjoin in Hstep. injection Hstep as <- _. simpl.
  exists room', (joined_member j.1.1 uid j.1.2 j.2
                   (members (default (new_room (now_getRoom j.2))
                                     (rooms (server w) !! rid)))).
  split; [done|]. split; [by rewrite Hms, get_set_eq|]. split; [done|].
  by destruct (rooms (server w) !! rid).
Qed.

Lemma joins_run rid uid js : ∀ w w' out room0 m0 j,
  store_ok (rooms (server w)) → rid ≠ "" → uid ≠ "" →
  rooms (server w) !! rid = Some room0 → JsMap.get uid (members room0) = Some m0 →
  socketId m0 = j.1.1 →
  run w (join_events rid uid js) = Some (w', out) →
  store_ok (rooms (server w')) ∧
  ∃ room' m',
    rooms (server w') !! rid = Some room' ∧
    JsMap.get uid (members room') = Some m' ∧
    joinedAt m' = joinedAt m0 ∧
    socketId m' = (List.last js j).1.1.
Proof.
  induction js as [|j' js IH]; intros w w' out room0 m0 j Hok Hrid Huid Hroom Hget Hsid Hrun.
  - injection Hrun as <- _. split; [done|]. by exists room0, m0.
  - unfold join_events in Hrun. rewrite fmap_cons in Hrun. cbn [run] in Hrun.
    destruct (step w (join_event rid uid j')) as [[w1 out1]|] eqn:Hstep; [|discriminate].
    destruct (run w1 (join_event rid uid <$> js)) as [[w2 out2]|] eqn:Hrest; [|discriminate].
    injection Hrun as <- _.
    destruct (join_step w rid uid j' w1 out1 Hok Hrid Huid Hstep)
      as (Hok1 & room1 & m1 & Hroom1 & Hget1 & Hsid1 & Hat1).
    rewrite Hroom in Hat1. simpl in Hat1. rewrite Hget in Hat1.
    destruct (IH w1 w2 out2 room1 m1 j' Hok1 Hrid Huid Hroom1 Hget1 Hsid1 Hrest)
      as (Hok2 & room' & m' & Hroom' & Hget' & Hat' & Hsid').
    split; [done|]. exists room', m'. rewrite last_cons_default.
    split; [done|]. split; [done|]. split; [congruence | done].
Qed.

(** C4: after any sequence of joins to one room as one user, from
    whatever connections, the room's [members] holds exactly one entry
    for that user; its [joinedAt] is the one the entry had after the first
    of these joins, and its connection is that of the last join. *)
Theorem rejoin_keeps_one_entry w rid uid j js w1 out1 w' out' :
  reachable w → rid ≠ "" → uid ≠ "" →
  step w (join_event rid uid j) = Some (w1, out1) →
  run w1 (join_events rid uid js) = Some (w', out') →
  ∃ room1 m1 room' m',
    rooms (server w1) !! rid = Some room1 ∧
    JsMap.get uid (members room1) = Some m1 ∧
    rooms (server w') !! rid = Some room' ∧
    filter (λ kv, kv.1 = uid) (members room') = [(uid, m')] ∧
    joinedAt m' = joinedAt m1 ∧
    socketId m' = (List.last js j).1.1.
Proof.
  intros Hreach Hrid Huid Hstep Hrun.
  destruct (join_step w rid uid j w1 out1 (reachable_ok w Hreach) Hrid Huid Hstep)
    as (Hok1 & room1 & m1 & Hroom1 & Hget1 & Hsid1 & _).
  destruct (joins_run rid uid js w1 w' out' room1 m1 j Hok1 Hrid Huid Hroom1 Hget1 Hsid1 Hrun)
    as (Hok' & room' & m' & Hroom' & Hget' & Hat' & Hsid').
  exists room1, m1, room', m'. repeat (split; [done|]). split; [|done].
  apply filter_key_unique; [|done].
  by destruct (store_ok_lookup _ _ _ Hok' Hroom').
Qed.

Lemma rejoin_keeps_one_entry_witness :
  ∃ w1 out1 w' out',
    step (final_world before_rejoins)
      (join_event "r1" "alice" ("s1", Some "alice", tick 1000 "T1")) = Some (w1, out1) ∧
    run w1 (join_events "r1" "alice"
              [("s2", Some "alice", tick 2000 "T2");
               ("s1", Some "alice", tick 3000 "T3")]) = Some (w', out') ∧
    ∃ room1 m1 room' m',
      rooms (server w1) !! "r1" = Some room1 ∧
      JsMap.get "alice" (members room1) = Some m1 ∧
      rooms (server w') !! "r1" = Some room' ∧
      filter (λ kv, kv.1 = "alice") (members room') = [("alice", m')] ∧
      joinedAt m' = joinedAt m1 ∧
      socketId m' = "s1".
Proof.
  assert (Hreach : reachable (final_world before_rejoins))
    by (apply final_world_reachable; vm_compute; eauto).
  destruct (step (final_world before_rejoins)
              (join_event "r1" "alice" ("s1", Some "alice", tick 1000 "T1")))
    as [[w1 out1]|] eqn:Hstep; [|vm_compute in Hstep; discriminate].
  destruct (run w1 (join_events "r1" "alice"
                      [("s2", Some "alice", tick 2000 "T2");
                       ("s1", Some "alice", tick 3000 "T3")]))
    as [[w' out']|] eqn:Hrun.
  - exists w1, out1, w', out'. split; [reflexivity|]. split; [exact Hrun|].
    apply (rejoin_keeps_one_entry (final_world before_rejoins) "r1" "alice"
             ("s1", Some "alice", tick 1000 "T1")
             [("s2", Some "alice", tick 2000 "T2"); ("s1", Some "alice", tick 3000 "T3")]
             w1 out1 w' out' Hreach); [discriminate | discriminate | exact Hstep | exact Hrun].
  - vm_compute in Hstep. injection Hstep as <- _. vm_compute in Hrun. discriminate.
Defined.

(** * Further properties of the handlers *)

(** ** What a departure does to the server *)

(** [doLeave] either finds no room and does nothing, or deletes the room
    it emptied, or writes back [left_room]; the connection leaves the
    room's channel in both of the latter cases. *)
Lemma doLeave_cases sid roomId c sv :
  doLeave sid roomId c sv = (c, sv, []) ∧ rooms_get roomId (rooms sv) = None ∨
  ∃ rid room,
    roomId = Some rid ∧ rooms sv !! rid = Some room ∧
    (members (remove_member sid (departing_user sid c room) room) = [] ∧
     doLeave sid roomId c sv =
       (c, {| rooms := delete rid (rooms sv);
              channels := socket_leave sid rid (channels sv) |}, [])
     ∨
     members (remove_member sid (departing_user sid c room) room) ≠ [] ∧
     doLeave sid roomId c sv =
       (if bool_decide (Some rid = currentRoomId c)
        then {| currentRoomId := None; currentUserId := None |} else c,
        {| rooms := <[rid := left_room sid rid c room]> (rooms sv);
           channels := socket_leave sid rid (channels sv) |},
        (reassign_host rid (departing_user sid c room)
           (remove_member sid (departing_user sid c room) room)).2 ++
        [Emit (io_to rid)
           (members_update rid (serializeMembers (left_room sid rid c room) rid))])).
Proof.
  unfold doLeave. destruct roomId as [rid|]; [|by left].
  destruct (rooms_get (Some rid) (rooms sv)) as [room|] eqn:Hget; [|by left].
  right. exists rid, room. split; [done|]. split; [done|].
  case_bool_decide as Hsize.
  - left. split; [|done]. by destruct (members (remove_member _ _ _)).
  - right. split.
    + intros Hnil. apply Hsize. unfold JsMap.size. by rewrite Hnil.
    + unfold left_room. by destruct (reassign_host _ _ _).
Qed.

(** [join_room], once its guard has passed, is the implicit leave followed
    by the upsert into the room [getRoom] returns. *)
Lemma on_join_room_store sid rid uid uname clk c sv :
  rid ≠ "" → uid ≠ "" →
  let pre := implicit_leave sid rid c sv in
  let old := default (new_room (now_getRoom clk)) (rooms pre.1.2 !! rid) in
  let room' := joined_room sid uid uname clk old in
  on_join_room sid (Some rid) (Some uid) uname clk c sv =
    Returned {| currentRoomId := Some rid; currentUserId := Some uid |}
      {| rooms := <[rid := room']> (rooms pre.1.2);
         channels := socket_join sid rid (channels pre.1.2) |}
      (pre.2 ++
       [Emit (io_to rid) (members_update rid (serializeMembers room' rid));
        Emit (socket_emit sid)
          (room_state rid (currentSong room') (getCurrentPosition room' (now_position clk))
             (status room') (now_server_time clk) (serializeMembers room' rid))]).
Proof.
  intros Hrid Huid. unfold on_join_room, implicit_leave. simpl.
  rewrite !bool_decide_true by done. simpl.
  destruct (if truthy (currentRoomId c) && bool_decide (currentRoomId c ≠ Some rid)
            then doLeave sid (currentRoomId c) c sv else (c, sv, []))
    as [[c1 sv1] out1]. simpl.
  unfold getRoom, joined_room, joined_member, JsMap.has.
  destruct (rooms sv1 !! rid) as [room|]; simpl.
  - by destruct (JsMap.get uid (members room)).
  - by rewrite insert_insert_eq.
Qed.

Lemma implicit_leave_other sid rid c sv :
  rooms (implicit_leave sid rid c sv).1.2 !! rid = rooms sv !! rid.
Proof.
  unfold implicit_leave. destruct (truthy (currentRoomId c)); simpl; [|done].
  case_bool_decide; [by apply doLeave_other | done].
Qed.

Lemma truthy_Some v : truthy v = true → ∃ s, v = Some s ∧ s ≠ "".
Proof.
  destruct v as [s|]; simpl; [|discriminate].
  intros H. apply bool_decide_eq_true in H. eauto.
Qed.

Lemma on_join_room_guard sid room_id user_id uname clk c sv :
  truthy room_id = false ∨ truthy user_id = false →
  on_join_room sid room_id user_id uname clk c sv = Returned c sv [].
Proof.
  intros Hguard. unfold on_join_room.
  destruct room_id as [rid|]; [|done]. destruct user_id as [uid|]; [|done].
  by destruct Hguard as [-> | ->]; rewrite ?orb_true_r.
Qed.

(** ** A proof principle for room invariants *)

(** A property of rooms that survives a playback update, a departure that
    leaves members behind, and the upsert of a join (into a stored room or
    a fresh one) holds of every room of every reachable world. *)
Section RoomInvariant.
Variable P : RoomState → Prop.
Hypothesis P_playback :
  ∀ room song pos st t, P room → P (with_playback song pos st t room).
Hypothesis P_left :
  ∀ sid rid c room,
    P room → members (remove_member sid (departing_user sid c room) room) ≠ [] →
    P (left_room sid rid c room).
Hypothesis P_joined :
  ∀ sid uid uname clk room, uid ≠ "" → P room → P (joined_room sid uid uname clk room).
Hypothesis P_new :
  ∀ sid uid uname clk now, uid ≠ "" → P (joined_room sid uid uname clk (new_room now)).

Lemma doLeave_preserves sid roomId c sv :
  map_Forall (λ _, P) (rooms sv) →
  map_Forall (λ _, P) (rooms (doLeave sid roomId c sv).1.2).
Proof.
  intros Hall.
  destruct (doLeave_cases sid roomId c sv)
    as [[-> _]|(rid & room & -> & Hroom & [[_ ->]|[Hne ->]])]; simpl.
  - done.
  - by apply map_Forall_delete.
  - apply map_Forall_insert_2; [|done]. apply P_left; [|done]. exact (Hall rid room Hroom).
Qed.

Lemma update_room_preserves room_id song pos st t sv :
  map_Forall (λ _, P) (rooms sv) →
  map_Forall (λ _, P)
    (rooms (update_room room_id (λ room, with_playback (song room) pos (st room) t room) sv)).
Proof.
  intros Hall. unfold update_room. destruct room_id as [rid|]; [|done].
  destruct (rooms_get (Some rid) (rooms sv)) as [room|] eqn:Hroom; [|done].
  simpl. apply map_Forall_insert_2; [|done]. apply P_playback. exact (Hall rid room Hroom).
Qed.

Lemma on_join_room_preserves sid room_id user_id uname clk c sv :
  map_Forall (λ _, P) (rooms sv) →
  map_Forall (λ _, P)
    (rooms (outcome_server (on_join_room sid room_id user_id uname clk c sv))).
Proof.
  intros Hall.
  destruct (truthy room_id) eqn:Hr; [|by rewrite on_join_room_guard by auto].
  destruct (truthy user_id) eqn:Hu; [|by rewrite on_join_room_guard by auto].
  apply truthy_Some in Hr as (rid & -> & Hrid). apply truthy_Some in Hu as (uid & -> & Huid).
  rewrite on_join_room_store by done. simpl.
  assert (Hpre : map_Forall (λ _, P) (rooms (implicit_leave sid rid c sv).1.2)).
  { unfold implicit_leave. destruct (_ && _); [by apply doLeave_preserves | done]. }
  apply map_Forall_insert_2; [|done].
  destruct (rooms (implicit_leave sid rid c sv).1.2 !! rid) as [room|] eqn:Hroom; simpl.
  - apply P_joined; [done|]. exact (Hpre rid room Hroom).
  - by apply P_new.
Qed.

Lemma handle_preserves sid m clk c sv :
  map_Forall (λ _, P) (rooms sv) →
  map_Forall (λ _, P) (rooms (outcome_server (handle sid m clk c sv))).
Proof.
  intros Hall. destruct m as [r u n|r|r p s t|r p|r p|r s|r|d|r]; cbn [handle].
  - by apply on_join_room_preserves.
  - unfold on_request_state. destruct r; [|done]. by destruct (rooms_get _ _).
  - exact (update_room_preserves r currentSong p (λ _, s) _ sv Hall).
  - unfold on_play, on_transport. destruct r, p; cbn [outcome_server];
      exact (update_room_preserves _ currentSong _ (λ _, Some "playing") _ sv Hall).
  - unfold on_pause, on_transport. destruct r, p; cbn [outcome_server];
      exact (update_room_preserves _ currentSong _ (λ _, Some "paused") _ sv Hall).
  - unfold on_song_change. destruct s, r; cbn [outcome_server];
      exact (update_room_preserves _ (λ _, _) _ (λ _, _) _ sv Hall).
  - exact (update_room_preserves r currentSong _ status _ sv Hall).
  - unfold on_vote. by destruct (truthy _).
  - unfold on_leave_room. pose proof (doLeave_preserves sid r c sv Hall) as H.
    by destruct (doLeave sid r c sv) as [[c' sv'] out].
Qed.

Lemma step_preserves w e w' out :
  map_Forall (λ _, P) (rooms (server w)) → step w e = Some (w', out) →
  map_Forall (λ _, P) (rooms (server w')).
Proof.
  intros Hall. destruct e as [sid|sid m clk|sid]; cbn [step].
  - destruct (conns w !! sid); [discriminate|]. by intros [= <- _].
  - destruct (conns w !! sid) as [c|]; [|discriminate].
    pose proof (handle_preserves sid m clk c (server w) Hall) as H.
    destruct (handle sid m clk c (server w)); [|discriminate].
    by intros [= <- _].
  - destruct (conns w !! sid) as [c|]; [|discriminate].
    unfold on_disconnect. destruct (truthy (currentRoomId c)).
    + set (sv0 := {| rooms := rooms (server w); channels := _ |}).
      pose proof (doLeave_preserves sid (currentRoomId c) c sv0 Hall) as H.
      destruct (doLeave sid (currentRoomId c) c sv0) as [[c' sv'] out'].
      by intros [= <- _].
    + by intros [= <- _].
Qed.

Lemma run_preserves es : ∀ w w' out,
  map_Forall (λ _, P) (rooms (server w)) → run w es = Some (w', out) →
  map_Forall (λ _, P) (rooms (server w')).
Proof.
  induction es as [|e es IH]; cbn [run]; intros w w' out Hall Hrun.
  - by injection Hrun as <- _.
  - destruct (step w e) as [[w1 out1]|] eqn:Hstep; [|discriminate].
    destruct (run w1 es) as [[w2 out2]|] eqn:Hrest; [|discriminate].
    injection Hrun as <- _. eapply IH; [|done]. by eapply step_preserves.
Qed.

Lemma reachable_preserves w : reachable w → map_Forall (λ _, P) (rooms (server w)).
Proof.
  intros (es & out & Hrun). eapply run_preserves; [|done]. apply map_Forall_empty.
Qed.
End RoomInvariant.

(** ** The host is the first member *)

Lemma head_keys_set {V} k (v : V) m :
  m ≠ [] → head (JsMap.keys (JsMap.set k v m)) = head (JsMap.keys m).
Proof.
  destruct m as [|[k0 v0] m]; [done|]. intros _. simpl.
  by destruct (decide (k = k0)) as [->|].
Qed.

Lemma head_keys_delete {V} k u (m : list (string * V)) :
  head (JsMap.keys m) = Some k → k ≠ u →
  head (JsMap.keys (JsMap.delete u m)) = Some k.
Proof.
  destruct m as [|[k0 v0] m]; [done|]. intros [= ->] Hne.
  unfold JsMap.delete. by rewrite filter_cons_True by done.
Qed.

Lemma get_delete_ne {V} k u (m : list (string * V)) :
  k ≠ u → JsMap.get k (JsMap.delete u m) = JsMap.get k m.
Proof.
  intros Hne. unfold JsMap.delete. induction m as [|[k0 v0] m IH]; [done|].
  rewrite filter_cons. simpl. destruct (decide (k0 ≠ u)) as [Hk|Hk]; simpl.
  - by rewrite IH.
  - apply dec_stable in Hk. subst k0. by rewrite decide_False.
Qed.

Lemma head_value_of_key (ms : list (string * Member)) k :
  Forall (λ kv, userId kv.2 = kv.1) ms → head (JsMap.keys ms) = Some k →
  ∃ newHost rest, JsMap.values ms = newHost :: rest ∧ userId newHost = k.
Proof.
  destruct ms as [|[k0 m] ms]; [done|]. intros Hkeyed [= ->].
  apply Forall_cons in Hkeyed as [Hk _]. by exists m, (ms.*2).
Qed.

Lemma left_room_host_first sid rid c room :
  room_ok room → host_first room →
  members (remove_member sid (departing_user sid c room) room) ≠ [] →
  host_first (left_room sid rid c room).
Proof.
  intros Hok [Hkeys Hhost] Hne. unfold left_room.
  set (user := departing_user sid c room) in *.
  destruct (remove_member_ok sid user room Hok Hne) as (Hnd & Hkeyed & _).
  destruct (remove_member_cases sid user room) as [Hh Hms].
  assert (Hkeys1 : Forall (λ kv, kv.1 ≠ "") (members (remove_member sid user room))).
  { destruct Hms as [->|(u & m & _ & _ & _ & ->)]; [done|].
    rewrite Forall_forall in Hkeys |- *. intros kv Hin.
    by apply Hkeys, (delete_subseteq u). }
  constructor; rewrite reassign_host_members; [done|].
  unfold reassign_host. rewrite Hh. case_bool_decide as Heq.
  - destruct (members (remove_member sid user room)) as [|[k m] ms] eqn:Hm1; [done|].
    simpl. apply Forall_cons in Hkeyed as [Hk _]. simpl in Hk. by rewrite Hk.
  - simpl. rewrite Hh, Hhost.
    destruct Hms as [->|(u & m & Hu & Hget & _ & ->)]; [done|].
    destruct (head (JsMap.keys (members room))) as [k|] eqn:Hhead.
    + symmetry. apply head_keys_delete; [done|]. intros ->. congruence.
    + destruct (members room); [discriminate Hget | discriminate Hhead].
Qed.

Lemma joined_room_ok sid uid uname clk room :
  NoDup (JsMap.keys (members room)) →
  Forall (λ kv, userId kv.2 = kv.1) (members room) →
  (∀ h, hostUserId room = Some h → h ∈ JsMap.keys (members room)) →
  room_ok (joined_room sid uid uname clk room).
Proof. intros Hnd Hkeyed Hhost. by apply upsert_ok. Qed.

Lemma joined_room_host_first sid uid uname clk room :
  uid ≠ "" → Forall (λ kv, kv.1 ≠ "") (members room) →
  hostUserId room = head (JsMap.keys (members room)) →
  host_first (joined_room sid uid uname clk room).
Proof.
  intros Huid Hkeys Hhost.
  assert (Hkeys' : Forall (λ kv, kv.1 ≠ "")
            (JsMap.set uid (joined_member sid uid uname clk (members room)) (members room))).
  { rewrite Forall_forall in Hkeys |- *. intros [k m] Hin.
    apply elem_of_set in Hin as [[= -> ->]|Hin]; [done | by apply Hkeys]. }
  unfold joined_room. simpl.
  destruct (members room) as [|[k0 m0] ms] eqn:Hms.
  - simpl in Hhost. rewrite Hhost. simpl. by constructor.
  - simpl in Hhost. rewrite Hhost. simpl.
    apply Forall_cons in Hkeys as [Hk0 _]. simpl in Hk0.
    rewrite bool_decide_true by done. simpl.
    constructor; simpl; [done|]. rewrite Hhost.
    by destruct (decide (uid = k0)) as [->|].
Qed.

Lemma reachable_host_first w :
  reachable w → map_Forall (λ _ room, room_ok room ∧ host_first room) (rooms (server w)).
Proof.
  apply reachable_preserves.
  - intros room song pos st t [[Hnd Hkeyed Hne Hhost] [Hkeys Hfirst]].
    split; by constructor.
  - intros sid rid c room [Hok Hfirst] Hne. split.
    + by apply leave_room_ok.
    + by apply left_room_host_first.
  - intros sid uid uname clk room Huid [[Hnd Hkeyed Hne Hhost] [Hkeys Hfirst]]. split.
    + by apply joined_room_ok.
    + by apply joined_room_host_first.
  - intros sid uid uname clk now Huid. split.
    + apply joined_room_ok; simpl; [apply NoDup_nil_2 | apply Forall_nil_2 | discriminate].
    + apply joined_room_host_first; simpl; [done | apply Forall_nil_2 | done].
Qed.

(** X1: in every reachable state the host of a room is its first member
    in enumeration order, and that member's key is a non-empty string
    equal to its [userId]. *)
Theorem host_is_first_member w rid room :
  reachable w → rooms (server w) !! rid = Some room →
  ∃ k m rest,
    members room = (k, m) :: rest ∧ hostUserId room = Some k ∧
    userId m = k ∧ k ≠ "".
Proof.
  intros Hreach Hroom.
  destruct (reachable_host_first w Hreach rid room Hroom)
    as [[_ Hkeyed Hne _] [Hkeys Hfirst]].
  destruct (members room) as [|[k m] rest]; [done|].
  apply Forall_cons in Hkeyed as [Hk _]. apply Forall_cons in Hkeys as [Hk' _].
  by exists k, m, rest.
Qed.

Lemma host_is_first_member_witness :
  ∃ k m rest,
    members (room_at alice_and_bob "r1") = (k, m) :: rest ∧
    hostUserId (room_at alice_and_bob "r1") = Some k ∧ userId m = k ∧ k ≠ "".
Proof.
  apply (host_is_first_member (final_world alice_and_bob) "r1").
  - apply final_world_reachable. vm_compute. eauto.
  - vm_compute. reflexivity.
Defined.

(** ** How one message can change a stored room *)

Lemma update_room_lookup room_id f sv r :
  rooms (update_room room_id f sv) !! r =
  (if bool_decide (room_id = Some r) then f else id) <$> rooms sv !! r.
Proof.
  unfold update_room. destruct room_id as [rid|]; simpl.
  - destruct (rooms sv !! rid) as [room|] eqn:Hroom; simpl.
    + case_bool_decide as Heq.
      * injection Heq as ->. by rewrite lookup_insert_eq, Hroom.
      * rewrite lookup_insert_ne by congruence. by destruct (rooms sv !! r).
    + case_bool_decide as Heq.
      * injection Heq as ->. by rewrite Hroom.
      * by destruct (rooms sv !! r).
  - by destruct (rooms sv !! r).
Qed.

Lemma doLeave_lookup sid roomId c sv r :
  rooms (doLeave sid roomId c sv).1.2 !! r = rooms sv !! r ∨
  ∃ room, roomId = Some r ∧ rooms sv !! r = Some room ∧
    (members (remove_member sid (departing_user sid c room) room) = [] ∧
     rooms (doLeave sid roomId c sv).1.2 !! r = None
     ∨
     members (remove_member sid (departing_user sid c room) room) ≠ [] ∧
     rooms (doLeave sid roomId c sv).1.2 !! r = Some (left_room sid r c room)).
Proof.
  destruct (doLeave_cases sid roomId c sv)
    as [[-> _]|(rid & room & -> & Hroom & [[Hnil ->]|[Hne ->]])]; simpl.
  - by left.
  - destruct (decide (rid = r)) as [->|Hr].
    + right. exists room. rewrite lookup_delete_eq. auto.
    + left. by rewrite lookup_delete_ne.
  - destruct (decide (rid = r)) as [->|Hr].
    + right. exists room. rewrite lookup_insert_eq. auto.
    + left. by rewrite lookup_insert_ne.
Qed.

Lemma implicit_leave_lookup sid rid c sv r :
  rooms (implicit_leave sid rid c sv).1.2 !! r = rooms sv !! r ∨
  ∃ room, r ≠ rid ∧ currentRoomId c = Some r ∧ rooms sv !! r = Some room ∧
    (members (remove_member sid (departing_user sid c room) room) = [] ∧
     rooms (implicit_leave sid rid c sv).1.2 !! r = None
     ∨
     members (remove_member sid (departing_user sid c room) room) ≠ [] ∧
     rooms (implicit_leave sid rid c sv).1.2 !! r = Some (left_room sid r c room)).
Proof.
  unfold implicit_leave. destruct (truthy (currentRoomId c)); simpl; [|by left].
  case_bool_decide as Hne; simpl; [|by left].
  destruct (doLeave_lookup sid (currentRoomId c) c sv r) as [Heq|(room & Hcur & Hroom & H)].
  - by left.
  - right. exists room. split; [congruence|]. done.
Qed.

(** Every change one message makes to a room the store holds is of one of
    three kinds: a playback update stamped with the server clock, the
    departure of the sending connection, or the upsert of a join. *)
Lemma handle_room_change sid m clk c sv r room room' :
  rooms sv !! r = Some room →
  rooms (outcome_server (handle sid m clk c sv)) !! r = Some room' →
  room' = room ∨
  (∃ song pos st, room' = with_playback song pos st (now_lastSync clk) room) ∨
  (room' = left_room sid r c room ∧
   members (remove_member sid (departing_user sid c room) room) ≠ []) ∨
  (∃ uid uname, uid ≠ "" ∧ m = JoinRoom (Some r) (Some uid) uname ∧
                room' = joined_room sid uid uname clk room).
Proof.
  intros Hroom.
  assert (Hupd : ∀ room_id song pos st,
    rooms (update_room room_id
             (λ room, with_playback (song room) pos (st room) (now_lastSync clk) room) sv)
      !! r = Some room' →
    room' = room ∨
    (∃ song pos st, room' = with_playback song pos st (now_lastSync clk) room) ∨
    (room' = left_room sid r c room ∧
     members (remove_member sid (departing_user sid c room) room) ≠ []) ∨
    (∃ uid uname, uid ≠ "" ∧ m = JoinRoom (Some r) (Some uid) uname ∧
                  room' = joined_room sid uid uname clk room)).
  { intros room_id song pos st. rewrite update_room_lookup, Hroom. simpl.
    case_bool_decide; intros [= <-]; [right; left; eauto | by left]. }
  assert (Hleave : ∀ roomId,
    rooms (doLeave sid roomId c sv).1.2 !! r = Some room' →
    room' = room ∨
    (room' = left_room sid r c room ∧
     members (remove_member sid (departing_user sid c room) room) ≠ [])).
  { intros roomId Hr'.
    destruct (doLeave_lookup sid roomId c sv r) as [Heq|(room0 & _ & Hroom0 & [[_ Hn]|[Hne Hs]])].
    - left. congruence.
    - congruence.
    - right. assert (room0 = room) as -> by congruence. split; [congruence | done]. }
  destruct m as [r0 u n|r0|r0 p s t|r0 p|r0 p|r0 s|r0|d|r0]; cbn [handle].
  - destruct (truthy r0) eqn:Hr0;
      [|rewrite on_join_room_guard by auto; simpl; left; congruence].
    destruct (truthy u) eqn:Hu;
      [|rewrite on_join_room_guard by auto; simpl; left; congruence].
    apply truthy_Some in Hr0 as (rid & -> & Hrid). apply truthy_Some in Hu as (uid & -> & Huid).
    rewrite on_join_room_store by done. simpl.
    destruct (decide (rid = r)) as [->|Hne].
    + rewrite lookup_insert_eq, implicit_leave_other, Hroom. simpl.
      intros [= <-]. right; right; right. by exists uid, n.
    + rewrite lookup_insert_ne by done. intros Hr'.
      destruct (implicit_leave_lookup sid rid c sv r)
        as [Heq|(room0 & _ & _ & Hroom0 & [[_ Hn]|[Hne0 Hs]])].
      * left. congruence.
      * congruence.
      * right; right; left. assert (room0 = room) as -> by congruence.
        split; [congruence | done].
  - unfold on_request_state. destruct r0; [|simpl; left; congruence].
    destruct (rooms_get _ _); simpl; left; congruence.
  - exact (Hupd r0 currentSong p (λ _, s)).
  - unfold on_play, on_transport. destruct r0, p; cbn [outcome_server];
      exact (Hupd _ currentSong _ (λ _, Some "playing")).
  - unfold on_pause, on_transport. destruct r0, p; cbn [outcome_server];
      exact (Hupd _ currentSong _ (λ _, Some "paused")).
  - unfold on_song_change. destruct s, r0; cbn [outcome_server];
      exact (Hupd _ (λ _, _) _ (λ _, _)).
  - exact (Hupd r0 currentSong _ status).
  - unfold on_vote. destruct (truthy _); simpl; left; congruence.
  - unfold on_leave_room. intros Hr'.
    assert (rooms (doLeave sid r0 c sv).1.2 !! r = Some room') as Hr''.
    { by destruct (doLeave sid r0 c sv) as [[c' sv'] out]. }
    destruct (Hleave r0 Hr'') as [?|?]; auto.
Qed.

Lemma step_room_change w e w' out r room room' :
  step w e = Some (w', out) →
  rooms (server w) !! r = Some room → rooms (server w') !! r = Some room' →
  room' = room ∨
  (∃ song pos st t, room' = with_playback song pos st t room) ∨
  (∃ sid c, room' = left_room sid r c room ∧
            members (remove_member sid (departing_user sid c room) room) ≠ []) ∨
  (∃ sid uid uname clk, uid ≠ "" ∧ room' = joined_room sid uid uname clk room).
Proof.
  destruct e as [sid|sid m clk|sid]; cbn [step].
  - destruct (conns w !! sid); [discriminate|]. intros [= <- _] Hroom Hroom'.
    left. simpl in Hroom'. congruence.
  - destruct (conns w !! sid) as [c|]; [|discriminate].
    pose proof (handle_room_change sid m clk c (server w) r room room') as Hch.
    destruct (handle sid m clk c (server w)) as [c' sv' out'|]; [|discriminate].
    intros [= <- _] Hroom Hroom'. simpl in *.
    destruct (Hch Hroom Hroom') as [?|[(song & pos & st & ?)|[[? ?]|(uid & uname & ? & _ & ?)]]].
    + by left.
    + right; left. eauto.
    + right; right; left. eauto.
    + right; right; right. eauto 6.
  - destruct (conns w !! sid) as [c|]; [|discriminate].
    unfold on_disconnect. destruct (truthy (currentRoomId c)).
    + set (sv0 := {| rooms := rooms (server w); channels := _ |}).
      pose proof (doLeave_lookup sid (currentRoomId c) c sv0 r) as Hl.
      destruct (doLeave sid (currentRoomId c) c sv0) as [[c' sv'] out'].
      intros [= <- _] Hroom Hroom'. simpl in *.
      destruct Hl as [Heq|(room0 & _ & Hroom0 & [[_ Hn]|[Hne Hs]])].
      * left. congruence.
      * congruence.
      * right; right; left. exists sid, c.
        assert (room0 = room) as -> by congruence. split; [congruence | done].
    + intros [= <- _] Hroom Hroom'. left. simpl in Hroom'. congruence.
Qed.

Lemma left_room_host sid rid c room :
  room_ok room → host_first room →
  members (remove_member sid (departing_user sid c room) room) ≠ [] →
  hostUserId (left_room sid rid c room) = hostUserId room ∨
  ∃ h, hostUserId room = Some h ∧ h ∉ JsMap.keys (members (left_room sid rid c room)).
Proof.
  intros Hok [Hkeys Hhost] Hne. unfold left_room.
  set (user := departing_user sid c room) in *.
  destruct (remove_member_ok sid user room Hok Hne) as (_ & Hkeyed & _).
  destruct (remove_member_cases sid user room) as [Hh Hms].
  rewrite reassign_host_members. unfold reassign_host. rewrite Hh.
  case_bool_decide as Heq; [|by left].
  destruct Hms as [Hsame|(u & m & Hu & Hget & _ & Hdel)].
  - left. rewrite Hsame in *.
    destruct (members room) as [|[k m] ms] eqn:Hm; [done|]. simpl.
    apply Forall_cons in Hkeyed as [Hk _]. simpl in Hk. rewrite Hk.
    by rewrite Hhost.
  - right. exists u. split; [congruence|]. rewrite Hdel, keys_delete. tauto.
Qed.

(** X2: the host keeps the role until its own member entry is removed: a
    single event either leaves a room's [hostUserId] as it was, or the
    former host is no longer a member afterwards. *)
Theorem host_changes_only_when_host_leaves w e w' out r room room' :
  reachable w → step w e = Some (w', out) →
  rooms (server w) !! r = Some room → rooms (server w') !! r = Some room' →
  hostUserId room' = hostUserId room ∨
  ∃ h, hostUserId room = Some h ∧ h ∉ JsMap.keys (members room').
Proof.
  intros Hreach Hstep Hroom Hroom'.
  destruct (reachable_host_first w Hreach r room Hroom) as [Hok Hfirst].
  destruct (step_room_change w e w' out r room room' Hstep Hroom Hroom')
    as [->|[(song & pos & st & t & ->)|[(sid & c & -> & Hne)|(sid & uid & uname & clk & Huid & ->)]]].
  - by left.
  - by left.
  - by apply left_room_host.
  - left. destruct Hok as [_ _ Hne _]. destruct Hfirst as [Hkeys Hhost].
    unfold joined_room. simpl. rewrite Hhost.
    destruct (members room) as [|[k m] ms]; [done|]. simpl.
    apply Forall_cons in Hkeys as [Hk _]. simpl in Hk.
    by rewrite bool_decide_true.
Qed.

Lemma host_changes_only_when_host_leaves_witness :
  ∃ w' out room',
    step (final_world alice_and_bob) (Recv "s1" (LeaveRoom (Some "r1")) (tick 3000 "T3"))
      = Some (w', out) ∧
    rooms (server w') !! "r1" = Some room' ∧
    (hostUserId room' = hostUserId (room_at alice_and_bob "r1") ∨
     ∃ h, hostUserId (room_at alice_and_bob "r1") = Some h ∧
          h ∉ JsMap.keys (members room')).
Proof.
  destruct (step (final_world alice_and_bob)
              (Recv "s1" (LeaveRoom (Some "r1")) (tick 3000 "T3")))
    as [[w' out]|] eqn:Hstep; [|vm_compute in Hstep; discriminate].
  destruct (rooms (server w') !! "r1") as [room'|] eqn:Hroom'.
  - exists w', out, room'. split; [reflexivity|]. split; [exact Hroom'|].
    apply (host_changes_only_when_host_leaves (final_world alice_and_bob)
             (Recv "s1" (LeaveRoom (Some "r1")) (tick 3000 "T3")) w' out "r1").
    + apply final_world_reachable. vm_compute. eauto.
    + exact Hstep.
    + vm_compute. reflexivity.
    + exact Hroom'.
  - vm_compute in Hstep. injection Hstep as <- _. vm_compute in Hroom'. discriminate.
Defined.

(** ** Creation and deletion of rooms *)

Lemma handle_room_created sid m clk c sv r room' :
  rooms sv !! r = None →
  rooms (outcome_server (handle sid m clk c sv)) !! r = Some room' →
  ∃ uid uname,
    r ≠ "" ∧ uid ≠ "" ∧ m = JoinRoom (Some r) (Some uid) uname ∧
    room' = joined_room sid uid uname clk (new_room (now_getRoom clk)).
Proof.
  intros Hnone.
  assert (Hupd : ∀ room_id f, rooms (update_room room_id f sv) !! r ≠ Some room').
  { intros room_id f. by rewrite update_room_lookup, Hnone. }
  assert (Hleave : ∀ roomId, rooms (doLeave sid roomId c sv).1.2 !! r ≠ Some room').
  { intros roomId.
    destruct (doLeave_lookup sid roomId c sv r) as [->|(room0 & _ & Hroom0 & _)]; congruence. }
  destruct m as [r0 u n|r0|r0 p s t|r0 p|r0 p|r0 s|r0|d|r0]; cbn [handle].
  - destruct (truthy r0) eqn:Hr0; [|rewrite on_join_room_guard by auto; simpl; congruence].
    destruct (truthy u) eqn:Hu; [|rewrite on_join_room_guard by auto; simpl; congruence].
    apply truthy_Some in Hr0 as (rid & -> & Hrid). apply truthy_Some in Hu as (uid & -> & Huid).
    rewrite on_join_room_store by done. simpl.
    destruct (decide (rid = r)) as [->|Hne].
    + rewrite lookup_insert_eq, implicit_leave_other, Hnone. simpl.
      intros [= <-]. by exists uid, n.
    + rewrite lookup_insert_ne by done. intros Hr'.
      destruct (implicit_leave_lookup sid rid c sv r)
        as [Heq|(room0 & _ & _ & Hroom0 & _)]; congruence.
  - unfold on_request_state. destruct r0; [|simpl; congruence].
    destruct (rooms_get _ _); simpl; congruence.
  - intros H. by apply Hupd in H.
  - unfold on_play, on_transport. destruct r0, p; cbn [outcome_server];
      intros H; by apply Hupd in H.
  - unfold on_pause, on_transport. destruct r0, p; cbn [outcome_server];
      intros H; by apply Hupd in H.
  - unfold on_song_change. destruct s, r0; cbn [outcome_server];
      intros H; by apply Hupd in H.
  - intros H. by apply Hupd in H.
  - unfold on_vote. destruct (truthy _); simpl; congruence.
  - unfold on_leave_room. intros Hr'. exfalso. apply (Hleave r0).
    by destruct (doLeave sid r0 c sv) as [[c' sv'] out].
Qed.

Lemma handle_room_deleted sid m clk c sv r room :
  rooms sv !! r = Some room →
  rooms (outcome_server (handle sid m clk c sv)) !! r = None →
  members (remove_member sid (departing_user sid c room) room) = [] ∧
  (m = LeaveRoom (Some r) ∨
   is_join m = true ∧ room_id_of m ≠ Some r ∧ currentRoomId c = Some r).
Proof.
  intros Hroom.
  assert (Hupd : ∀ room_id f, rooms (update_room room_id f sv) !! r ≠ None).
  { intros room_id f. rewrite update_room_lookup, Hroom. by case_bool_decide. }
  destruct m as [r0 u n|r0|r0 p s t|r0 p|r0 p|r0 s|r0|d|r0]; cbn [handle].
  - destruct (truthy r0) eqn:Hr0; [|rewrite on_join_room_guard by auto; simpl; congruence].
    destruct (truthy u) eqn:Hu; [|rewrite on_join_room_guard by auto; simpl; congruence].
    apply truthy_Some in Hr0 as (rid & -> & Hrid). apply truthy_Some in Hu as (uid & -> & Huid).
    rewrite on_join_room_store by done. simpl.
    destruct (decide (rid = r)) as [->|Hne]; [by rewrite lookup_insert_eq|].
    rewrite lookup_insert_ne by done. intros Hr'.
    destruct (implicit_leave_lookup sid rid c sv r)
      as [Heq|(room0 & _ & Hcur & Hroom0 & [[Hnil _]|[_ Hs]])]; [congruence| |congruence].
    assert (room0 = room) as -> by congruence.
    split; [done|]. right. split; [done|]. split; [congruence | done].
  - unfold on_request_state. destruct r0; [|simpl; congruence].
    destruct (rooms_get _ _); simpl; congruence.
  - intros H. by apply Hupd in H.
  - unfold on_play, on_transport. destruct r0, p; cbn [outcome_server];
      intros H; by apply Hupd in H.
  - unfold on_pause, on_transport. destruct r0, p; cbn [outcome_server];
      intros H; by apply Hupd in H.
  - unfold on_song_change. destruct s, r0; cbn [outcome_server];
      intros H; by apply Hupd in H.
  - intros H. by apply Hupd in H.
  - unfold on_vote. destruct (truthy _); simpl; congruence.
  - unfold on_leave_room. intros Hr'.
    assert (rooms (doLeave sid r0 c sv).1.2 !! r = None) as Hr''.
    { by destruct (doLeave sid r0 c sv) as [[c' sv'] out]. }
    destruct (doLeave_lookup sid r0 c sv r)
      as [Heq|(room0 & -> & Hroom0 & [[Hnil _]|[_ Hs]])]; [congruence| |congruence].
    assert (room0 = room) as -> by congruence. auto.
Qed.

Lemma delete_nil_singleton {V} u (ms : list (string * V)) :
  NoDup (JsMap.keys ms) → ms ≠ [] → JsMap.delete u ms = [] → ∃ v, ms = [(u, v)].
Proof.
  unfold JsMap.delete, JsMap.keys. destruct ms as [|[k0 v0] rest]; [done|].
  intros Hnd _. apply NoDup_cons in Hnd as [Hnotin _].
  rewrite filter_cons. simpl. destruct (decide (k0 ≠ u)) as [|Hk0]; [done|].
  apply dec_stable in Hk0. subst k0.
  destruct rest as [|[k1 v1] rest]; [eauto|].
  rewrite filter_cons_True; [done|]. simpl. intros ->. apply Hnotin. left.
Qed.

Lemma remove_member_empties sid user room :
  room_ok room → members (remove_member sid user room) = [] →
  ∃ u mem, user = Some u ∧ members room = [(u, mem)] ∧ socketId mem = sid.
Proof.
  intros [Hnd _ Hne _] Hnil.
  destruct (remove_member_cases sid user room) as [_ [Hsame|(u & m & -> & Hget & Hsid & Hdel)]].
  - congruence.
  - rewrite Hdel in Hnil. destruct (delete_nil_singleton u _ Hnd Hne Hnil) as [v Hv].
    exists u, v. split; [done|]. split; [done|].
    rewrite Hv in Hget. simpl in Hget. rewrite decide_True in Hget by done. congruence.
Qed.

(** X3: a message brings a room into the store only if it is a
    [join_room] naming that room with a non-empty user id; the new room
    then has the joiner as its only member and host, no song, position 0,
    status idle, and [lastSync] read from the clock in [getRoom]. *)
Theorem room_created_only_by_join sid m clk c sv r room' :
  rooms sv !! r = None →
  rooms (outcome_server (handle sid m clk c sv)) !! r = Some room' →
  ∃ uid uname,
    r ≠ "" ∧ uid ≠ "" ∧ m = JoinRoom (Some r) (Some uid) uname ∧
    members room' = [(uid, joined_member sid uid uname clk [])] ∧
    socketToUser room' = {[sid := uid]} ∧
    hostUserId room' = Some uid ∧
    playback room' = (None, Some 0%float, Some "idle", now_getRoom clk).
Proof.
  intros Hnone Hsome.
  destruct (handle_room_created sid m clk c sv r room' Hnone Hsome)
    as (uid & uname & Hr & Huid & -> & ->).
  exists uid, uname. by repeat split.
Qed.

Lemma room_created_only_by_join_witness :
  ∃ uid uname,
    "r1" ≠ "" ∧ uid ≠ "" ∧
    JoinRoom (Some "r1") (Some "alice") (Some "alice") = JoinRoom (Some "r1") (Some uid) uname ∧
    members (room_at alice_alone "r1") =
      [(uid, joined_member "s1" uid uname (tick 1000 "T1") [])] ∧
    socketToUser (room_at alice_alone "r1") = {["s1" := uid]} ∧
    hostUserId (room_at alice_alone "r1") = Some uid ∧
    playback (room_at alice_alone "r1") = (None, Some 0%float, Some "idle", 1000%float).
Proof.
  apply (room_created_only_by_join "s1" (JoinRoom (Some "r1") (Some "alice") (Some "alice"))
           (tick 1000 "T1") {| currentRoomId := None; currentUserId := None |}
           (server (final_world [Connect "s1"])) "r1" (room_at alice_alone "r1"));
    vm_compute; reflexivity.
Defined.

(** X4: a message removes a room from the store only when it is a
    departure of the sending connection from that room (a [leave_room]
    naming it, or a [join_room] to another room while it is the
    connection's current room) and the room's only member is the
    departing user, registered under this very connection. *)
Theorem room_deleted_only_by_last_departure sid m clk c sv r room :
  room_ok room → rooms sv !! r = Some room →
  rooms (outcome_server (handle sid m clk c sv)) !! r = None →
  (m = LeaveRoom (Some r) ∨
   is_join m = true ∧ room_id_of m ≠ Some r ∧ currentRoomId c = Some r) ∧
  ∃ u mem,
    departing_user sid c room = Some u ∧ members room = [(u, mem)] ∧ socketId mem = sid.
Proof.
  intros Hok Hroom Hnone.
  destruct (handle_room_deleted sid m clk c sv r room Hroom Hnone) as [Hnil Hm].
  split; [done|]. by apply remove_member_empties.
Qed.

Lemma room_deleted_only_by_last_departure_witness :
  (LeaveRoom (Some "r1") = LeaveRoom (Some "r1") ∨
   is_join (LeaveRoom (Some "r1")) = true ∧
   room_id_of (LeaveRoom (Some "r1")) ≠ Some "r1" ∧ currentRoomId alice_conn = Some "r1") ∧
  ∃ u mem,
    departing_user "s1" alice_conn (room_at alice_alone "r1") = Some u ∧
    members (room_at alice_alone "r1") = [(u, mem)] ∧ socketId mem = "s1".
Proof.
  assert (Hroom : rooms (server (final_world alice_alone)) !! "r1" =
                  Some (room_at alice_alone "r1")) by (vm_compute; reflexivity).
  apply (room_deleted_only_by_last_departure "s1" (LeaveRoom (Some "r1")) (tick 2000 "T2")
           alice_conn (server (final_world alice_alone)) "r1").
  - apply (store_ok_lookup _ _ _
             (reachable_ok _ (final_world_reachable alice_alone
                                (ex_intro _ _ eq_refl))) Hroom).
  - exact Hroom.
  - vm_compute. reflexivity.
Defined.

(** ** Independence of rooms and of member entries *)

Lemma handle_lookup_other sid m clk c sv r :
  room_id_of m ≠ Some r → (is_join m = true → currentRoomId c ≠ Some r) →
  rooms (outcome_server (handle sid m clk c sv)) !! r = rooms sv !! r.
Proof.
  intros Hid Hcur.
  assert (Hupd : ∀ room_id f, room_id ≠ Some r →
            rooms (update_room room_id f sv) !! r = rooms sv !! r).
  { intros room_id f Hne. rewrite update_room_lookup, bool_decide_false by done.
    by destruct (rooms sv !! r). }
  destruct m as [r0 u n|r0|r0 p s t|r0 p|r0 p|r0 s|r0|d|r0]; cbn [handle]; simpl in Hid.
  - destruct (truthy r0) eqn:Hr0; [|by rewrite on_join_room_guard by auto].
    destruct (truthy u) eqn:Hu; [|by rewrite on_join_room_guard by auto].
    apply truthy_Some in Hr0 as (rid & -> & Hrid). apply truthy_Some in Hu as (uid & -> & Huid).
    rewrite on_join_room_store by done. simpl.
    rewrite lookup_insert_ne by congruence.
    destruct (implicit_leave_lookup sid rid c sv r) as [Heq|(room0 & _ & Hc & _)]; [done|].
    by destruct (Hcur eq_refl).
  - unfold on_request_state. destruct r0; [|done]. by destruct (rooms_get _ _).
  - by apply Hupd.
  - unfold on_play, on_transport. destruct r0, p; cbn [outcome_server]; by apply Hupd.
  - unfold on_pause, on_transport. destruct r0, p; cbn [outcome_server]; by apply Hupd.
  - unfold on_song_change. destruct s, r0; cbn [outcome_server]; by apply Hupd.
  - by apply Hupd.
  - unfold on_vote. by destruct (truthy _).
  - unfold on_leave_room.
    destruct (doLeave_lookup sid r0 c sv r) as [Heq|(room0 & -> & _)]; [|done].
    by destruct (doLeave sid r0 c sv) as [[c' sv'] out].
Qed.

(** X5: rooms are independent.  A message changes no room other than the
    one it names and, when it is a [join_room], the connection's current
    room (which the join leaves). *)
Theorem rooms_are_independent sid m clk c sv r :
  room_id_of m ≠ Some r → (is_join m = true → currentRoomId c ≠ Some r) →
  rooms (outcome_server (handle sid m clk c sv)) !! r = rooms sv !! r.
Proof. apply handle_lookup_other. Qed.

Lemma rooms_are_independent_witness :
  is_Some (rooms (server (final_world two_rooms)) !! "r1") ∧
  rooms (outcome_server
           (handle "s3" (Play (Some "r2") (Some 5%float)) (tick 5000 "T5")
              {| currentRoomId := Some "r2"; currentUserId := Some "carol" |}
              (server (final_world two_rooms)))) !! "r1" =
    rooms (server (final_world two_rooms)) !! "r1" ∧
  is_Some (rooms (server (final_world two_rooms)) !! "r2") ∧
  rooms (outcome_server
           (handle "s1" (LeaveRoom (Some "r1")) (tick 6000 "T6") alice_conn
              (server (final_world two_rooms)))) !! "r2" =
    rooms (server (final_world two_rooms)) !! "r2" ∧
  rooms (outcome_server
           (handle "s1" (JoinRoom (Some "r3") (Some "alice") None) (tick 7000 "T7")
              alice_conn (server (final_world two_rooms)))) !! "r2" =
    rooms (server (final_world two_rooms)) !! "r2".
Proof.
  split; [vm_compute; eauto|]. split.
  { apply (rooms_are_independent "s3" (Play (Some "r2") (Some 5%float)) (tick 5000 "T5")
             {| currentRoomId := Some "r2"; currentUserId := Some "carol" |}
             (server (final_world two_rooms)) "r1"); [discriminate | discriminate]. }
  split; [vm_compute; eauto|]. split.
  { apply (rooms_are_independent "s1" (LeaveRoom (Some "r1")) (tick 6000 "T6") alice_conn
             (server (final_world two_rooms)) "r2"); [discriminate | discriminate]. }
  apply (rooms_are_independent "s1" (JoinRoom (Some "r3") (Some "alice") None)
           (tick 7000 "T7") alice_conn (server (final_world two_rooms)) "r2");
    [discriminate | intros _; discriminate].
Defined.

Lemma remove_member_keeps sid user room u mem :
  JsMap.get u (members room) = Some mem → socketId mem ≠ sid →
  JsMap.get u (members (remove_member sid user room)) = Some mem.
Proof.
  intros Hget Hsid.
  destruct (remove_member_cases sid user room) as [_ [->|(u0 & m0 & _ & Hget0 & Hsid0 & ->)]].
  - done.
  - rewrite get_delete_ne; [done|]. intros ->. congruence.
Qed.

(** X6: a connection cannot remove or alter the member entry that is
    registered under another connection, short of joining the room under
    that very user id.  After any other message from [sid], the room is
    still in the store and the entry is as it was. *)
Theorem foreign_entry_is_kept sid m clk c sv r room u mem :
  rooms sv !! r = Some room →
  JsMap.get u (members room) = Some mem → socketId mem ≠ sid →
  (∀ uname, m ≠ JoinRoom (Some r) (Some u) uname) →
  ∃ room',
    rooms (outcome_server (handle sid m clk c sv)) !! r = Some room' ∧
    JsMap.get u (members room') = Some mem.
Proof.
  intros Hroom Hget Hsid Hm.
  pose proof (remove_member_keeps sid (departing_user sid c room) room u mem Hget Hsid) as Hkeep.
  destruct (rooms (outcome_server (handle sid m clk c sv)) !! r) as [room'|] eqn:Hroom'.
  - exists room'. split; [done|].
    destruct (handle_room_change sid m clk c sv r room room' Hroom Hroom')
      as [->|[(song & pos & st & ->)|[[-> _]|(uid & uname & Huid & -> & ->)]]].
    + done.
    + done.
    + unfold left_room. by rewrite reassign_host_members.
    + assert (uid ≠ u) by (intros ->; by apply (Hm uname)).
      unfold joined_room.
      destruct (negb _); simpl; by rewrite get_set_ne.
  - destruct (handle_room_deleted sid m clk c sv r room Hroom Hroom') as [Hnil _].
    rewrite Hnil in Hkeep. discriminate.
Qed.

Lemma foreign_entry_is_kept_witness :
  ∃ room',
    rooms (outcome_server
             (handle "s1" (LeaveRoom (Some "r1")) (tick 3000 "T3") alice_conn
                (server (final_world alice_and_bob)))) !! "r1" = Some room' ∧
    JsMap.get "bob" (members room') = Some bob_member.
Proof.
  apply (foreign_entry_is_kept "s1" (LeaveRoom (Some "r1")) (tick 3000 "T3") alice_conn
           (server (final_world alice_and_bob)) "r1" (room_at alice_and_bob "r1")
           "bob" bob_member).
  - vm_compute. reflexivity.
  - vm_compute. reflexivity.
  - discriminate.
  - intros uname. discriminate.
Defined.

Lemma left_room_playback sid rid c room :
  playback (left_room sid rid c room) = playback room.
Proof.
  unfold left_room, reassign_host, remove_member.
  destruct (departing_user sid c room) as [u|]; simpl.
  - destruct (bool_decide (u ≠ "")); simpl;
      case_bool_decide; try done;
      by destruct (JsMap.values _).
  - case_bool_decide; [|done]. by destruct (JsMap.values _).
Qed.

Lemma joined_room_playback sid uid uname clk room :
  playback (joined_room sid uid uname clk room) = playback room.
Proof. unfold joined_room. by destruct (negb _). Qed.

(** X7: one message changes either the playback fields of a room or its
    membership, never both.  Either the song, position, status and
    [lastSync] are all as before, or [lastSync] is the server clock as
    read by this handler and the members, the connection table and the
    host are as before: position is never written without [lastSync]. *)
Theorem playback_and_membership_are_separate sid m clk c sv r room room' :
  rooms sv !! r = Some room →
  rooms (outcome_server (handle sid m clk c sv)) !! r = Some room' →
  playback room' = playback room ∨
  lastSync room' = now_lastSync clk ∧ members room' = members room ∧
  socketToUser room' = socketToUser room ∧ hostUserId room' = hostUserId room.
Proof.
  intros Hroom Hroom'.
  destruct (handle_room_change sid m clk c sv r room room' Hroom Hroom')
    as [->|[(song & pos & st & ->)|[[-> _]|(uid & uname & Huid & _ & ->)]]].
  - by left.
  - by right.
  - left. apply left_room_playback.
  - left. apply joined_room_playback.
Qed.

Lemma playback_and_membership_are_separate_witness :
  ∃ room',
    rooms (outcome_server
             (handle "s1" (Pause (Some "r1") (Some 33%float)) (tick 7000 "T7") alice_conn
                (server (final_world alice_and_bob)))) !! "r1" = Some room' ∧
    (playback room' = playback (room_at alice_and_bob "r1") ∨
     lastSync room' = 7000%float ∧
     members room' = members (room_at alice_and_bob "r1") ∧
     socketToUser room' = socketToUser (room_at alice_and_bob "r1") ∧
     hostUserId room' = hostUserId (room_at alice_and_bob "r1")).
Proof.
  eexists. split; [vm_compute; reflexivity|].
  apply (playback_and_membership_are_separate "s1" (Pause (Some "r1") (Some 33%float))
           (tick 7000 "T7") alice_conn (server (final_world alice_and_bob)) "r1");
    vm_compute; reflexivity.
Defined.

(** ** What is emitted, and to whom *)

Lemma doLeave_emit_inv sid roomId c sv x :
  x ∈ (doLeave sid roomId c sv).2 →
  ∃ rid room,
    roomId = Some rid ∧ rooms sv !! rid = Some room ∧
    members (remove_member sid (departing_user sid c room) room) ≠ [] ∧
    rooms (doLeave sid roomId c sv).1.2 !! rid = Some (left_room sid rid c room) ∧
    (x = Emit (io_to rid)
           (members_update rid (serializeMembers (left_room sid rid c room) rid)) ∨
     ∃ newHost rest,
       JsMap.values (members (left_room sid rid c room)) = newHost :: rest ∧
       hostUserId (left_room sid rid c room) = Some (userId newHost) ∧
       x = Emit (io_to (socketId newHost)) (promoted_to_host rid)).
Proof.
  destruct (doLeave_cases sid roomId c sv)
    as [[-> _]|(rid & room & -> & Hroom & [[Hnil ->]|[Hne ->]])]; simpl.
  - intros H. inversion H.
  - intros H. inversion H.
  - intros Hx. exists rid, room. rewrite lookup_insert_eq.
    do 4 (split; [done|]).
    apply elem_of_app in Hx as [Hx|Hx].
    + right. unfold left_room. unfold reassign_host in *.
      case_bool_decide; [|inversion Hx].
      destruct (JsMap.values (members (remove_member _ _ _))) as [|newHost rest] eqn:Hv;
        [inversion Hx|].
      apply list_elem_of_singleton in Hx. by exists newHost, rest.
    + left. by apply list_elem_of_singleton in Hx.
Qed.

(** The emits of one message: those of a departure of the sender, the
    [members_update] and snapshot of a join, the snapshot of a
    [request_state], or one relay to the named room minus the sender. *)
Lemma handle_emit_inv sid m clk c sv x :
  x ∈ outcome_emits (handle sid m clk c sv) →
  (∃ rid room,
     rooms sv !! rid = Some room ∧
     members (remove_member sid (departing_user sid c room) room) ≠ [] ∧
     rooms (outcome_server (handle sid m clk c sv)) !! rid =
       Some (left_room sid rid c room) ∧
     (x = Emit (io_to rid)
            (members_update rid (serializeMembers (left_room sid rid c room) rid)) ∨
      ∃ newHost rest,
        JsMap.values (members (left_room sid rid c room)) = newHost :: rest ∧
        hostUserId (left_room sid rid c room) = Some (userId newHost) ∧
        x = Emit (io_to (socketId newHost)) (promoted_to_host rid))) ∨
  (∃ rid room',
     rooms (outcome_server (handle sid m clk c sv)) !! rid = Some room' ∧
     (x = Emit (io_to rid) (members_update rid (serializeMembers room' rid)) ∧
      is_join m = true ∨
      x = Emit (socket_emit sid) (snapshot rid room' clk))) ∨
  (∃ msg, relay_msg m clk = Some msg ∧ x = Emit (socket_to sid (room_id_of m)) msg).
Proof.
  assert (Hrelay : ∀ msg, relay_msg m clk = Some msg →
            x ∈ [Emit (socket_to sid (room_id_of m)) msg] →
            ∃ msg, relay_msg m clk = Some msg ∧ x = Emit (socket_to sid (room_id_of m)) msg).
  { intros msg Hmsg Hx. apply list_elem_of_singleton in Hx. eauto. }
  destruct m as [r0 u n|r0|r0 p s t|r0 p|r0 p|r0 s|r0|d|r0]; cbn [handle].
  - destruct (truthy r0) eqn:Hr0;
      [|rewrite on_join_room_guard by auto; intros H; inversion H].
    destruct (truthy u) eqn:Hu;
      [|rewrite on_join_room_guard by auto; intros H; inversion H].
    apply truthy_Some in Hr0 as (rid & -> & Hrid). apply truthy_Some in Hu as (uid & -> & Huid).
    rewrite on_join_room_store by done. cbn [outcome_emits outcome_server rooms].
    intros Hx. apply elem_of_app in Hx as [Hx|Hx].
    + left. unfold implicit_leave in *.
      destruct (truthy (currentRoomId c)); simpl in Hx; [|inversion Hx].
      case_bool_decide as Hcur; simpl in Hx; [|inversion Hx]. simpl.
      destruct (doLeave_emit_inv sid (currentRoomId c) c sv x Hx)
        as (rid0 & room & Hc & Hroom & Hne & Hroom' & Hcase).
      exists rid0, room. do 2 (split; [done|]). split; [|done].
      rewrite lookup_insert_ne by congruence. done.
    + right; left. exists rid, (joined_room sid uid n clk
         (default (new_room (now_getRoom clk)) (rooms (implicit_leave sid rid c sv).1.2 !! rid))).
      rewrite lookup_insert_eq. split; [done|].
      apply elem_of_cons in Hx as [->|Hx]; [by left|].
      apply list_elem_of_singleton in Hx as ->. by right.
  - unfold on_request_state. destruct r0 as [rid|]; [|intros H; inversion H].
    destruct (rooms_get (Some rid) (rooms sv)) as [room|] eqn:Hroom;
      [|intros H; inversion H].
    simpl. intros Hx. apply list_elem_of_singleton in Hx as ->.
    right; left. exists rid, room. split; [done|]. by right.
  - unfold on_sync_position. cbn [outcome_emits]. intros Hx. right; right.
    eapply Hrelay; [|exact Hx]; reflexivity.
  - unfold on_play, on_transport. destruct r0, p; cbn [outcome_emits];
      intros Hx; right; right; (eapply Hrelay; [|exact Hx]; reflexivity).
  - unfold on_pause, on_transport. destruct r0, p; cbn [outcome_emits];
      intros Hx; right; right; (eapply Hrelay; [|exact Hx]; reflexivity).
  - unfold on_song_change. destruct s, r0; cbn [outcome_emits];
      intros Hx; right; right; (eapply Hrelay; [|exact Hx]; reflexivity).
  - unfold on_next_song. cbn [outcome_emits]. intros Hx. right; right.
    eapply Hrelay; [|exact Hx]; reflexivity.
  - unfold on_vote. destruct (truthy (vote_room_id d)) eqn:Hd; simpl;
      intros Hx; [|inversion Hx].
    right; right. eapply Hrelay; [|exact Hx]. simpl. by rewrite Hd.
  - unfold on_leave_room. intros Hx. left.
    assert (x ∈ (doLeave sid r0 c sv).2) as Hx'.
    { by destruct (doLeave sid r0 c sv) as [[c' sv'] out]. }
    destruct (doLeave_emit_inv sid r0 c sv x Hx')
      as (rid0 & room & Hc & Hroom & Hne & Hroom' & Hcase).
    exists rid0, room. do 2 (split; [done|]). split; [|done].
    by destruct (doLeave sid r0 c sv) as [[c' sv'] out].
Qed.

Lemma relay_msg_is_relay m clk msg : relay_msg m clk = Some msg → is_relay msg = true.
Proof.
  destruct m as [r0 u n|r0|r0 p s t|r0 p|r0 p|r0 s|r0|d|r0]; simpl;
    try destruct (truthy _); by intros [= <-].
Qed.

Lemma step_emit_inv w e w' out x :
  step w e = Some (w', out) → x ∈ out →
  (∃ sid c rid room,
     rooms (server w) !! rid = Some room ∧
     members (remove_member sid (departing_user sid c room) room) ≠ [] ∧
     rooms (server w') !! rid = Some (left_room sid rid c room) ∧
     (x = Emit (io_to rid)
            (members_update rid (serializeMembers (left_room sid rid c room) rid)) ∨
      ∃ newHost rest,
        JsMap.values (members (left_room sid rid c room)) = newHost :: rest ∧
        hostUserId (left_room sid rid c room) = Some (userId newHost) ∧
        x = Emit (io_to (socketId newHost)) (promoted_to_host rid))) ∨
  (∃ sid clk rid room',
     rooms (server w') !! rid = Some room' ∧
     (x = Emit (io_to rid) (members_update rid (serializeMembers room' rid)) ∨
      x = Emit (socket_emit sid) (snapshot rid room' clk))) ∨
  (∃ sid r msg, x = Emit (socket_to sid r) msg ∧ is_relay msg = true).
Proof.
  destruct e as [sid|sid m clk|sid]; cbn [step].
  - destruct (conns w !! sid); [discriminate|]. intros [= <- <-] Hx. inversion Hx.
  - destruct (conns w !! sid) as [c|]; [|discriminate].
    pose proof (handle_emit_inv sid m clk c (server w) x) as Hinv.
    destruct (handle sid m clk c (server w)) as [c' sv' out'|]; [|discriminate].
    intros [= <- <-] Hx. simpl in *.
    destruct (Hinv Hx) as [(rid & room & H)|[(rid & room' & Hroom' & [[-> _] | ->])|(msg & H)]].
    + left. by exists sid, c, rid, room.
    + right; left. exists sid, clk, rid, room'. auto.
    + right; left. exists sid, clk, rid, room'. auto.
    + right; right. destruct H as [Hmsg ->]. exists sid, (room_id_of m), msg.
      split; [done|]. by eapply relay_msg_is_relay.
  - destruct (conns w !! sid) as [c|]; [|discriminate].
    unfold on_disconnect. destruct (truthy (currentRoomId c)).
    + set (sv0 := {| rooms := rooms (server w); channels := _ |}).
      pose proof (doLeave_emit_inv sid (currentRoomId c) c sv0 x) as Hinv.
      destruct (doLeave sid (currentRoomId c) c sv0) as [[c' sv'] out'].
      intros [= <- <-] Hx. simpl in *.
      destruct (Hinv Hx) as (rid & room & _ & Hroom & Hne & Hroom' & Hcase).
      left. by exists sid, c, rid, room.
    + intros [= <- <-] Hx. inversion Hx.
Qed.

Lemma serialize_user_ids room rid :
  Forall (λ kv, userId kv.2 = kv.1) (members room) →
  user_id <$> serializeMembers room rid = JsMap.keys (members room).
Proof.
  unfold serializeMembers, JsMap.values, JsMap.keys.
  induction (members room) as [|[k m] ms IH]; csimpl; intros Hkeyed; [done|].
  apply Forall_cons in Hkeyed as [Hk Hms]. simpl in Hk. rewrite Hk. f_equal. auto.
Qed.

(** X8: every [members_update] the server emits is addressed to the
    channel of the room it names and carries the member list of that room
    as the store holds it after the event: one entry per member, in
    enumeration order, with distinct user ids, each tagged with the
    room's id; it is never empty. *)
Theorem members_update_is_current w e w' out t r ms :
  reachable w → step w e = Some (w', out) →
  Emit t (members_update r ms) ∈ out →
  t = io_to r ∧
  ∃ room,
    rooms (server w') !! r = Some room ∧
    ms = serializeMembers room r ∧
    user_id <$> ms = JsMap.keys (members room) ∧
    NoDup (user_id <$> ms) ∧ ms ≠ [] ∧
    Forall (λ sm, room_id sm = r) ms.
Proof.
  intros Hreach Hstep Hx.
  pose proof (step_ok w e w' out (reachable_ok w Hreach) Hstep) as Hok'.
  assert (Hgoal : ∀ room, rooms (server w') !! r = Some room →
            ms = serializeMembers room r →
            ∃ room, rooms (server w') !! r = Some room ∧ ms = serializeMembers room r ∧
              user_id <$> ms = JsMap.keys (members room) ∧
              NoDup (user_id <$> ms) ∧ ms ≠ [] ∧ Forall (λ sm, room_id sm = r) ms).
  { intros room Hroom ->. exists room.
    destruct (store_ok_lookup _ _ _ Hok' Hroom) as [Hnd Hkeyed Hne _].
    rewrite serialize_user_ids by done. do 4 (split; [done|]). split.
    - unfold serializeMembers, JsMap.values. by destruct (members room).
    - unfold serializeMembers. apply Forall_fmap, Forall_forall. done. }
  destruct (step_emit_inv w e w' out _ Hstep Hx)
    as [(sid & c & rid & room & _ & _ & Hroom' & [Heq|(nh & rest & _ & _ & Heq)])
       |[(sid & clk & rid & room' & Hroom' & [Heq|Heq])|(sid & r0 & msg & Heq & Hrelay)]].
  - injection Heq as -> -> ->. split; [done|]. by eapply Hgoal.
  - discriminate.
  - injection Heq as -> -> ->. split; [done|]. by eapply Hgoal.
  - discriminate.
  - injection Heq as -> <-. discriminate.
Qed.

Lemma members_update_is_current_witness :
  ∃ room,
    rooms (server (final_world (alice_and_bob ++ [Disconnect "s1"]))) !! "r1" = Some room ∧
    [{| user_id := "bob"; sm_username := "bob"; room_id := "r1"; joined_at := "T2" |}] =
      serializeMembers room "r1" ∧
    ["bob"] = JsMap.keys (members room).
Proof.
  destruct (members_update_is_current (final_world alice_and_bob) (Disconnect "s1")
              (final_world (alice_and_bob ++ [Disconnect "s1"]))
              [Emit (io_to "s2") (promoted_to_host "r1");
               Emit (io_to "r1")
                 (members_update "r1"
                    [{| user_id := "bob"; sm_username := "bob";
                        room_id := "r1"; joined_at := "T2" |}])]
              (io_to "r1") "r1"
              [{| user_id := "bob"; sm_username := "bob"; room_id := "r1"; joined_at := "T2" |}])
    as (_ & room & Hroom & Hms & Hids & _).
  - apply final_world_reachable. vm_compute. eauto.
  - vm_compute. reflexivity.
  - right. left.
  - exists room. auto.
Defined.

(** X9: a [promoted_to_host] is only ever addressed to the connection
    the store records, after the event, for the host of the room it
    names. *)
Theorem promoted_is_sent_to_host w e w' out t r :
  reachable w → step w e = Some (w', out) →
  Emit t (promoted_to_host r) ∈ out →
  ∃ room h mem,
    rooms (server w') !! r = Some room ∧ hostUserId room = Some h ∧
    JsMap.get h (members room) = Some mem ∧ t = io_to (socketId mem).
Proof.
  intros Hreach Hstep Hx.
  pose proof (step_ok w e w' out (reachable_ok w Hreach) Hstep) as Hok'.
  destruct (step_emit_inv w e w' out _ Hstep Hx)
    as [(sid & c & rid & room & _ & _ & Hroom' & [Heq|(nh & rest & Hvals & Hhost & Heq)])
       |[(sid & clk & rid & room' & Hroom' & [Heq|Heq])|(sid & r0 & msg & Heq & Hrelay)]];
    try discriminate.
  - injection Heq as -> ->.
    exists (left_room sid rid c room), (userId nh), nh. do 2 (split; [done|]). split; [|done].
    destruct (store_ok_lookup _ _ _ Hok' Hroom') as [_ Hkeyed _ _].
    destruct (members (left_room sid rid c room)) as [|[k m] ms]; [discriminate|].
    injection Hvals as -> _. apply Forall_cons in Hkeyed as [Hk _]. simpl in Hk.
    simpl. by rewrite decide_True.
  - injection Heq as -> <-. discriminate.
Qed.

Lemma promoted_is_sent_to_host_witness :
  ∃ room h mem,
    rooms (server (final_world (alice_and_bob ++ [Disconnect "s1"]))) !! "r1" = Some room ∧
    hostUserId room = Some h ∧
    JsMap.get h (members room) = Some mem ∧ io_to "s2" = io_to (socketId mem).
Proof.
  apply (promoted_is_sent_to_host (final_world alice_and_bob) (Disconnect "s1")
           (final_world (alice_and_bob ++ [Disconnect "s1"]))
           [Emit (io_to "s2") (promoted_to_host "r1");
            Emit (io_to "r1")
              (members_update "r1"
                 [{| user_id := "bob"; sm_username := "bob";
                     room_id := "r1"; joined_at := "T2" |}])]
           (io_to "s2") "r1").
  - apply final_world_reachable. vm_compute. eauto.
  - vm_compute. reflexivity.
  - left.
Defined.

Lemma sender_not_recipient ch sid r : sid ∉ recipients ch (socket_to sid r).
Proof.
  destruct r as [r|]; simpl.
  - rewrite elem_of_difference, elem_of_singleton. tauto.
  - apply not_elem_of_empty.
Qed.

(** X10: the fan-out of every handler.  A [members_update] goes to the
    channel of the room it names, a [room_state] to the sending
    connection alone, a [promoted_to_host] to a single channel, and every
    other message is the relay of the inbound payload, addressed to the
    room the payload names minus the sender, whom it never reaches. *)
Theorem fan_out_discipline sid m clk c sv t msg :
  Emit t msg ∈ outcome_emits (handle sid m clk c sv) →
  match msg with
  | members_update r _ => t = io_to r
  | room_state _ _ _ _ _ _ => t = socket_emit sid ∧ ∀ ch, recipients ch t = {[sid]}
  | promoted_to_host _ => ∃ x, t = io_to x
  | _ => relay_msg m clk = Some msg ∧ t = socket_to sid (room_id_of m) ∧
         ∀ ch, sid ∉ recipients ch t
  end.
Proof.
  intros Hx.
  destruct (handle_emit_inv sid m clk c sv _ Hx)
    as [(rid & room & _ & _ & _ & [Heq|(nh & rest & _ & _ & Heq)])
       |[(rid & room' & _ & [[Heq _]|Heq])|(msg' & Hmsg & Heq)]].
  - by injection Heq as -> ->.
  - injection Heq as -> ->. eauto.
  - by injection Heq as -> ->.
  - by injection Heq as -> ->.
  - injection Heq as -> <-. pose proof (relay_msg_is_relay m clk msg Hmsg) as Hrel.
    destruct msg; try discriminate;
      (split; [done|]; split; [done|]; intros ch; apply sender_not_recipient).
Qed.

Lemma fan_out_discipline_witness :
  relay_msg (Play (Some "r1") (Some 42.5%float)) (tick 7000 "T7") =
    Some (sync_position (Some "r1") (Some 42.5%float) (Some "playing") 7000) ∧
  socket_to "s1" (Some "r1") =
    socket_to "s1" (room_id_of (Play (Some "r1") (Some 42.5%float))) ∧
  ∀ ch, "s1" ∉ recipients ch (socket_to "s1" (Some "r1")).
Proof.
  apply (fan_out_discipline "s1" (Play (Some "r1") (Some 42.5%float)) (tick 7000 "T7")
           alice_conn (server (final_world three_listeners))
           (socket_to "s1" (Some "r1"))
           (sync_position (Some "r1") (Some 42.5%float) (Some "playing") 7000)).
  left.
Defined.

(** Which handlers can throw on a message that carries a payload object:
    [play] and [pause] when the room id or the position is missing,
    [song_change] when it carries a song but no room id, and no other. *)
Lemma handle_throws_iff sid m clk c sv :
  threw (handle sid m clk c sv) = true ↔
  match m with
  | Play r p | Pause r p => r = None ∨ p = None
  | SongChange r (Some _) => r = None
  | _ => False
  end.
Proof.
  destruct m as [r0 u n|r0|r0 p s t|r0 p|r0 p|r0 s|r0|d|r0]; cbn [handle].
  - destruct (truthy r0) eqn:Hr0; [|by rewrite on_join_room_guard by auto].
    destruct (truthy u) eqn:Hu; [|by rewrite on_join_room_guard by auto].
    apply truthy_Some in Hr0 as (rid & -> & Hrid). apply truthy_Some in Hu as (uid & -> & Huid).
    by rewrite on_join_room_store by done.
  - unfold on_request_state. destruct r0; [|done]. by destruct (rooms_get _ _).
  - done.
  - unfold on_play, on_transport. destruct r0, p; simpl; split; try done; auto;
      intros [?|?]; done.
  - unfold on_pause, on_transport. destruct r0, p; simpl; split; try done; auto;
      intros [?|?]; done.
  - unfold on_song_change. by destruct s, r0.
  - done.
  - unfold on_vote. by destruct (truthy _).
  - unfold on_leave_room. by destruct (doLeave sid r0 c sv) as [[c' sv'] out].
Qed.

(** X12: messages other than [join_room] and [leave_room] are
    membership-neutral.  They leave the subscriptions and the sender's
    closure variables as they were, add or remove no room, and change no
    room's members, connection table or host - also when the handler
    throws. *)
Theorem transport_keeps_membership sid m clk c sv :
  is_join m = false → is_leave m = false →
  channels (outcome_server (handle sid m clk c sv)) = channels sv ∧
  outcome_conn (handle sid m clk c sv) = c ∧
  ∀ r,
    (λ room, (members room, socketToUser room, hostUserId room)) <$>
      rooms (outcome_server (handle sid m clk c sv)) !! r =
    (λ room, (members room, socketToUser room, hostUserId room)) <$> rooms sv !! r.
Proof.
  intros Hjoin Hleave.
  assert (Hupd : ∀ room_id song pos st t,
    let sv' := update_room room_id
                 (λ room, with_playback (song room) pos (st room) t room) sv in
    channels sv' = channels sv ∧
    ∀ r, (λ room, (members room, socketToUser room, hostUserId room)) <$> rooms sv' !! r =
         (λ room, (members room, socketToUser room, hostUserId room)) <$> rooms sv !! r).
  { intros room_id song pos st t sv'. split.
    - unfold sv', update_room. destruct room_id; [|done]. by destruct (rooms_get _ _).
    - intros r. unfold sv'. rewrite update_room_lookup.
      destruct (rooms sv !! r); [|done]. simpl. by case_bool_decide. }
  destruct m as [r0 u n|r0|r0 p s t|r0 p|r0 p|r0 s|r0|d|r0]; try discriminate;
    cbn [handle].
  - unfold on_request_state. destruct r0; [|done]. by destruct (rooms_get _ _).
  - destruct (Hupd r0 currentSong p (λ _, s) (now_lastSync clk)). done.
  - unfold on_play, on_transport.
    destruct (Hupd r0 currentSong p (λ _, Some "playing") (now_lastSync clk)).
    by destruct r0, p.
  - unfold on_pause, on_transport.
    destruct (Hupd r0 currentSong p (λ _, Some "paused") (now_lastSync clk)).
    by destruct r0, p.
  - unfold on_song_change.
    destruct (Hupd r0 (λ _, s) (Some 0%float)
                (λ _, Some (match s with Some _ => "playing" | None => "idle" end))
                (now_lastSync clk)).
    by destruct s, r0.
  - destruct (Hupd r0 currentSong (Some 0%float) status (now_lastSync clk)). done.
  - unfold on_vote. by destruct (truthy _).
Qed.

Lemma transport_keeps_membership_witness :
  channels (outcome_server
              (handle "s1" (SongChange (Some "r1") None) (tick 7000 "T7") alice_conn
                 (server (final_world alice_and_bob)))) =
    channels (server (final_world alice_and_bob)) ∧
  outcome_conn (handle "s1" (SongChange (Some "r1") None) (tick 7000 "T7") alice_conn
                  (server (final_world alice_and_bob))) = alice_conn ∧
  ∀ r,
    (λ room, (members room, socketToUser room, hostUserId room)) <$>
      rooms (outcome_server
               (handle "s1" (SongChange (Some "r1") None) (tick 7000 "T7") alice_conn
                  (server (final_world alice_and_bob)))) !! r =
    (λ room, (members room, socketToUser room, hostUserId room)) <$>
      rooms (server (final_world alice_and_bob)) !! r.
Proof.
  apply (transport_keeps_membership "s1" (SongChange (Some "r1") None) (tick 7000 "T7")
           alice_conn (server (final_world alice_and_bob))); reflexivity.
Defined.

(** ** Joining a room that is in the store *)

Lemma getCurrentPosition_playback room1 room2 now :
  playback room1 = playback room2 →
  getCurrentPosition room1 now = getCurrentPosition room2 now.
Proof. unfold playback, getCurrentPosition. by intros [= _ -> -> ->]. Qed.

Lemma channel_socket_join sid r ch r' :
  channel (socket_join sid r ch) r' =
  if decide (r = r') then {[sid]} ∪ channel ch r' else channel ch r'.
Proof.
  unfold channel, socket_join. destruct (decide (r = r')) as [->|Hne].
  - by rewrite lookup_insert_eq.
  - by rewrite lookup_insert_ne.
Qed.

(** X13: a join to a room the store holds does not touch its playback
    fields, and the joiner is told the live state: after the emits of the
    implicit leave come a [members_update] for the room, which lists the
    joiner and reaches the joining connection, and then a [room_state]
    for the joiner alone with the room's song and status and the position
    extrapolated by [getCurrentPosition] at the clock of the join. *)
Theorem join_reports_live_state sid rid uid uname clk c sv room :
  rid ≠ "" → uid ≠ "" → rooms sv !! rid = Some room →
  ∃ sv' room',
    on_join_room sid (Some rid) (Some uid) uname clk c sv =
      Returned {| currentRoomId := Some rid; currentUserId := Some uid |} sv'
        ((implicit_leave sid rid c sv).2 ++
         [Emit (io_to rid) (members_update rid (serializeMembers room' rid));
          Emit (socket_emit sid)
            (room_state rid (currentSong room)
               (getCurrentPosition room (now_position clk)) (status room)
               (now_server_time clk) (serializeMembers room' rid))]) ∧
    rooms sv' !! rid = Some room' ∧
    playback room' = playback room ∧
    (∃ sm, sm ∈ serializeMembers room' rid ∧ user_id sm = uid) ∧
    sid ∈ recipients (channels sv') (io_to rid).
Proof.
  intros Hrid Huid Hroom.
  pose proof (on_join_room_store sid rid uid uname clk c sv Hrid Huid) as Hjoin.
  cbv zeta in Hjoin. rewrite implicit_leave_other, Hroom in Hjoin.
  cbn [default from_option id] in Hjoin.
  eexists _, (joined_room sid uid uname clk room).
  pose proof (joined_room_playback sid uid uname clk room) as Hpb.
  split.
  { rewrite Hjoin. do 3 f_equal. f_equal. f_equal.
    unfold playback in Hpb. injection Hpb as Hs Hp Hst Hl.
    rewrite <- (getCurrentPosition_playback _ _ (now_position clk)
                  (joined_room_playback sid uid uname clk room)).
    by rewrite Hs, Hst. }
  simpl. rewrite lookup_insert_eq. do 2 (split; [done|]). split.
  - exists {| user_id := uid;
              sm_username := username (joined_member sid uid uname clk (members room));
              room_id := rid;
              joined_at := joinedAt (joined_member sid uid uname clk (members room)) |}.
    split; [|done]. unfold serializeMembers, JsMap.values.
    apply list_elem_of_fmap.
    exists (joined_member sid uid uname clk (members room)). split; [done|].
    apply list_elem_of_fmap.
    exists (uid, joined_member sid uid uname clk (members room)). split; [done|].
    apply get_elem. unfold joined_room. destruct (negb _); simpl; apply get_set_eq.
  - rewrite channel_socket_join, decide_True by done. apply elem_of_union_l.
    by apply elem_of_singleton.
Qed.

Lemma join_reports_live_state_witness :
  ∃ sv' room',
    on_join_room "s2" (Some "r1") (Some "bob") (Some "bob") (tick 7000 "T7")
      {| currentRoomId := None; currentUserId := None |}
      (server (final_world playing_session)) =
      Returned {| currentRoomId := Some "r1"; currentUserId := Some "bob" |} sv'
        ([] ++
         [Emit (io_to "r1") (members_update "r1" (serializeMembers room' "r1"));
          Emit (socket_emit "s2")
            (room_state "r1" None (Some 15%float) (Some "playing") 7000
               (serializeMembers room' "r1"))]) ∧
    rooms sv' !! "r1" = Some room' ∧
    playback room' = (None, Some 10%float, Some "playing", 2000%float).
Proof.
  destruct (join_reports_live_state "s2" "r1" "bob" (Some "bob") (tick 7000 "T7")
              {| currentRoomId := None; currentUserId := None |}
              (server (final_world playing_session)) (room_at playing_session "r1"))
    as (sv' & room' & Hjoin & Hroom' & Hpb & _);
    [discriminate | discriminate | vm_compute; reflexivity |].
  exists sv', room'. split; [exact Hjoin|]. split; [exact Hroom'|]. exact Hpb.
Defined.

(** X14: the upsert of a join is in place.  In a room the store holds,
    the enumeration order of the members is unchanged when the user is
    already a member and the user is appended last otherwise; the user's
    entry takes the joining connection and the payload's display name
    ("Anonymous" when it is absent or empty); every other entry is as it
    was. *)
Theorem join_upserts_in_place sid rid uid uname clk c sv room :
  rid ≠ "" → uid ≠ "" → rooms sv !! rid = Some room →
  ∃ room' mem,
    rooms (outcome_server (on_join_room sid (Some rid) (Some uid) uname clk c sv)) !! rid
      = Some room' ∧
    JsMap.keys (members room') =
      (if JsMap.has uid (members room) then JsMap.keys (members room)
       else JsMap.keys (members room) ++ [uid]) ∧
    JsMap.get uid (members room') = Some mem ∧
    socketId mem = sid ∧
    username mem = (if truthy uname then default "" uname else "Anonymous") ∧
    socketToUser room' !! sid = Some uid ∧
    ∀ u, u ≠ uid → JsMap.get u (members room') = JsMap.get u (members room).
Proof.
  intros Hrid Huid Hroom.
  rewrite on_join_room_store by done. simpl.
  rewrite lookup_insert_eq, implicit_leave_other, Hroom. simpl.
  exists (joined_room sid uid uname clk room),
         (joined_member sid uid uname clk (members room)).
  split; [done|].
  assert (Hms : members (joined_room sid uid uname clk room) =
                JsMap.set uid (joined_member sid uid uname clk (members room)) (members room)).
  { unfold joined_room. by destruct (negb _). }
  assert (Hstu : socketToUser (joined_room sid uid uname clk room) =
                 <[sid := uid]> (socketToUser room)).
  { unfold joined_room. by destruct (negb _). }
  rewrite Hms, Hstu. split; [apply keys_set|]. split; [apply get_set_eq|].
  do 2 (split; [done|]). split; [apply lookup_insert_eq|].
  intros u Hu. by apply get_set_ne.
Qed.

Lemma join_upserts_in_place_witness :
  ∃ room' mem,
    rooms (outcome_server
             (on_join_room "s3" (Some "r1") (Some "alice") None (tick 9000 "T9")
                {| currentRoomId := None; currentUserId := None |}
                (server (final_world three_listeners)))) !! "r1" = Some room' ∧
    JsMap.keys (members room') = ["alice"; "bob"; "carol"] ∧
    JsMap.get "alice" (members room') = Some mem ∧
    socketId mem = "s3" ∧ username mem = "Anonymous" ∧
    socketToUser room' !! "s3" = Some "alice" ∧
    ∀ u, u ≠ "alice" →
         JsMap.get u (members room') = JsMap.get u (members (room_at three_listeners "r1")).
Proof.
  apply (join_upserts_in_place "s3" "r1" "alice" None (tick 9000 "T9")
           {| currentRoomId := None; currentUserId := None |}
           (server (final_world three_listeners)) (room_at three_listeners "r1"));
    [discriminate | discriminate | vm_compute; reflexivity].
Defined.

(** ** Subscriptions *)

Lemma channel_socket_leave sid r ch r' :
  channel (socket_leave sid r ch) r' =
  if decide (r = r') then channel ch r' ∖ {[sid]} else channel ch r'.
Proof.
  unfold channel, socket_leave. destruct (decide (r = r')) as [->|Hne].
  - rewrite lookup_alter_eq. destruct (ch !! r'); simpl; [done|].
    apply set_eq. intros x. rewrite elem_of_difference. split; [|tauto].
    intros Hx. by apply not_elem_of_empty in Hx.
  - by rewrite lookup_alter_ne.
Qed.

Lemma channel_leaveAll sid ch r :
  channel (socket_leaveAll sid ch) r = channel ch r ∖ {[sid]}.
Proof.
  unfold channel, socket_leaveAll. rewrite lookup_fmap.
  destruct (ch !! r); simpl; [done|].
  apply set_eq. intros x. rewrite elem_of_difference. split; [|tauto].
  intros Hx. by apply not_elem_of_empty in Hx.
Qed.

Lemma doLeave_channels sid roomId c sv :
  (channels (doLeave sid roomId c sv).1.2 = channels sv ∧
   rooms_get roomId (rooms sv) = None) ∨
  (∃ rid, roomId = Some rid ∧ is_Some (rooms sv !! rid) ∧
          channels (doLeave sid roomId c sv).1.2 = socket_leave sid rid (channels sv)).
Proof.
  destruct (doLeave_cases sid roomId c sv)
    as [[-> Hnone]|(rid & room & -> & Hroom & [[_ ->]|[_ ->]])]; simpl.
  - by left.
  - right. exists rid. eauto.
  - right. exists rid. eauto.
Qed.

(** X15: [leave_room] unsubscribes the connection exactly when the room
    is in the store.  For a stored room the connection leaves the room's
    channel before the [members_update] goes out, so it does not receive
    it, while every other subscription is untouched; for a room id the
    store does not hold, the handler returns before [socket.leave] and
    the connection stays subscribed. *)
Theorem leave_unsubscribes_iff_room_stored sid rid c sv :
  let sv' := outcome_server (on_leave_room sid (Some rid) c sv) in
  (is_Some (rooms sv !! rid) →
   (sid ∉ channel (channels sv') rid) ∧
   (∀ x, x ≠ sid → (x ∈ channel (channels sv') rid ↔ x ∈ channel (channels sv) rid)) ∧
   (∀ r, r ≠ rid → channel (channels sv') r = channel (channels sv) r) ∧
   (∀ t r ms, Emit t (members_update r ms) ∈
                outcome_emits (on_leave_room sid (Some rid) c sv) →
              sid ∉ recipients (channels sv') t)) ∧
  (rooms sv !! rid = None →
   on_leave_room sid (Some rid) c sv = Returned c sv []).
Proof.
  intros sv'. split.
  - intros [room Hroom].
    assert (Hch : channels sv' = socket_leave sid rid (channels sv)).
    { unfold sv', on_leave_room.
      destruct (doLeave_channels sid (Some rid) c sv) as [[_ Hnone]|(rid0 & [= <-] & _ & Heq)].
      - simpl in Hnone. congruence.
      - by destruct (doLeave sid (Some rid) c sv) as [[c' sv0] out]. }
    rewrite Hch.
    assert (Hnotin : sid ∉ channel (socket_leave sid rid (channels sv)) rid).
    { rewrite channel_socket_leave, decide_True by done.
      rewrite elem_of_difference, elem_of_singleton. tauto. }
    split; [done|]. split; [|split].
    + intros x Hx. rewrite channel_socket_leave, decide_True by done.
      rewrite elem_of_difference, elem_of_singleton. tauto.
    + intros r Hr. by rewrite channel_socket_leave, decide_False.
    + intros t r ms Hx.
      assert (Emit t (members_update r ms) ∈ (doLeave sid (Some rid) c sv).2) as Hx'.
      { unfold on_leave_room in Hx.
        by destruct (doLeave sid (Some rid) c sv) as [[c' sv0] out]. }
      destruct (doLeave_emit_inv sid (Some rid) c sv _ Hx')
        as (rid0 & room0 & [= <-] & _ & _ & _ & [Heq|(nh & rest & _ & _ & Heq)]);
        [|discriminate].
      by injection Heq as -> _ _.
  - intros Hnone. unfold on_leave_room, doLeave. simpl. by rewrite Hnone.
Qed.

Lemma leave_unsubscribes_iff_room_stored_witness :
  ("s1" ∉ channel (channels (outcome_server
                               (on_leave_room "s1" (Some "r1") alice_conn
                                  (server (final_world alice_and_bob))))) "r1") ∧
  on_leave_room "s1" (Some "r1") alice_conn (server (final_world stale_subscriber)) =
    Returned alice_conn (server (final_world stale_subscriber)) [].
Proof.
  split.
  - apply (proj1 (leave_unsubscribes_iff_room_stored "s1" "r1" alice_conn
                    (server (final_world alice_and_bob)))).
    vm_compute. eauto.
  - apply (proj2 (leave_unsubscribes_iff_room_stored "s1" "r1" alice_conn
                    (server (final_world stale_subscriber)))).
    vm_compute. reflexivity.
Defined.

(** X16: a disconnect always goes through and leaves nothing of the
    connection behind in the adapter: its closure variables are dropped,
    it is subscribed to no channel, and none of the messages emitted on
    its departure reaches it. *)
Theorem disconnect_cleans_up w sid c :
  conns w !! sid = Some c →
  ∃ w' out,
    step w (Disconnect sid) = Some (w', out) ∧
    conns w' !! sid = None ∧
    (∀ r, sid ∉ channel (channels (server w')) r) ∧
    ∀ t msg, Emit t msg ∈ out → sid ∉ recipients (channels (server w')) t.
Proof.
  intros Hc. cbn [step]. rewrite Hc. unfold on_disconnect.
  set (sv0 := {| rooms := rooms (server w);
                 channels := socket_leaveAll sid (channels (server w)) |}).
  assert (Hall : ∀ r, sid ∉ channel (channels sv0) r).
  { intros r. simpl. rewrite channel_leaveAll, elem_of_difference, elem_of_singleton. tauto. }
  destruct (truthy (currentRoomId c)).
  - pose proof (doLeave_channels sid (currentRoomId c) c sv0) as Hch.
    pose proof (doLeave_emit_inv sid (currentRoomId c) c sv0) as Hinv.
    destruct (doLeave sid (currentRoomId c) c sv0) as [[c' sv'] out]. simpl in *.
    assert (Hall' : ∀ r, sid ∉ channel (channels sv') r).
    { intros r. destruct Hch as [[-> _]|(rid & _ & _ & ->)]; [apply Hall|].
      rewrite channel_socket_leave. destruct (decide (rid = r)); [|apply Hall].
      rewrite elem_of_difference, elem_of_singleton. tauto. }
    eexists _, _. split; [reflexivity|]. simpl.
    split; [apply lookup_delete_eq|]. split; [done|].
    intros t msg Hx.
    destruct (Hinv _ Hx) as (rid & room & _ & _ & _ & _ & [Heq|(nh & rest & _ & _ & Heq)]);
      injection Heq as -> _; apply Hall'.
  - eexists _, _. split; [reflexivity|]. simpl.
    split; [apply lookup_delete_eq|]. split; [done|].
    intros t msg Hx. inversion Hx.
Qed.

Lemma disconnect_cleans_up_witness :
  ∃ w' out,
    step (final_world alice_and_bob) (Disconnect "s1") = Some (w', out) ∧
    conns w' !! "s1" = None ∧
    (∀ r, "s1" ∉ channel (channels (server w')) r) ∧
    ∀ t msg, Emit t msg ∈ out → "s1" ∉ recipients (channels (server w')) t.
Proof.
  apply (disconnect_cleans_up (final_world alice_and_bob) "s1" alice_conn).
  vm_compute. reflexivity.
Defined.

(** ** Join followed by leave *)

Lemma delete_set_fresh {V} k (v : V) m :
  JsMap.get k m = None → JsMap.delete k (JsMap.set k v m) = m.
Proof.
  unfold JsMap.delete. induction m as [|[k0 v0] m IH]; simpl.
  - intros _. by rewrite filter_cons_False by (simpl; tauto).
  - destruct (decide (k = k0)) as [->|Hne]; [discriminate|]. intros Hget.
    rewrite filter_cons_True by (simpl; congruence). by rewrite IH.
Qed.

Lemma join_then_doLeave sid rid uid uname clk c sv :
  rid ≠ "" → uid ≠ "" → store_ok (rooms sv) →
  (∀ room, rooms sv !! rid = Some room → host_first room) →
  (∀ room, rooms sv !! rid = Some room → JsMap.get uid (members room) = None) →
  let o := on_join_room sid (Some rid) (Some uid) uname clk c sv in
  let after := doLeave sid (Some rid) (outcome_conn o) (outcome_server o) in
  rooms after.1.2 !! rid =
    (λ room, with_members (members room) (delete sid (socketToUser room)) room)
      <$> rooms sv !! rid ∧
  sid ∉ channel (channels after.1.2) rid.
Proof.
  intros Hrid Huid Hok Hfirst Hfresh o after. subst o after.
  rewrite on_join_room_store by done. cbn [outcome_conn outcome_server].
  rewrite implicit_leave_other.
  set (pre := implicit_leave sid rid c sv).
  set (old := default (new_room (now_getRoom clk)) (rooms sv !! rid)).
  set (J := joined_room sid uid uname clk old).
  assert (Hgetold : JsMap.get uid (members old) = None).
  { unfold old. destruct (rooms sv !! rid) as [room|] eqn:Hroom; simpl; [eauto | done]. }
  assert (HmsJ : members J =
            JsMap.set uid (joined_member sid uid uname clk (members old)) (members old)).
  { unfold J, joined_room. by destruct (negb _). }
  assert (HstuJ : socketToUser J = <[sid := uid]> (socketToUser old)).
  { unfold J, joined_room. by destruct (negb _). }
  assert (Huser : departing_user sid {| currentRoomId := Some rid; currentUserId := Some uid |} J
                  = Some uid).
  { unfold departing_user, js_or. rewrite HstuJ, lookup_insert_eq. simpl.
    by rewrite bool_decide_true. }
  assert (Hrm : remove_member sid (Some uid) J =
                with_members (members old) (delete sid (socketToUser old)) J).
  { rewrite (remove_member_current sid uid (joined_member sid uid uname clk (members old)) J);
      [|done|by rewrite HmsJ, get_set_eq|done].
    by rewrite HmsJ, HstuJ, delete_set_fresh, delete_insert_eq. }
  unfold doLeave. cbn [rooms_get mbind option_bind rooms channels].
  rewrite lookup_insert_eq, Huser, Hrm. cbn [members with_members].
  assert (Hch : ∀ ch, sid ∉ channel (socket_leave sid rid ch) rid).
  { intros ch. rewrite channel_socket_leave, decide_True by done.
    rewrite elem_of_difference, elem_of_singleton. tauto. }
  unfold old in *. destruct (rooms sv !! rid) as [room|] eqn:Hroom; simpl in *.
  - destruct (store_ok_lookup _ _ _ Hok Hroom) as [_ _ Hne Hhost].
    destruct (Hfirst room eq_refl) as [Hkeys Hhf].
    destruct (members room) as [|[k m] ms] eqn:Hms; [done|].
    simpl in Hhf. apply Forall_cons in Hkeys as [Hk _]. simpl in Hk.
    assert (Hku : k ≠ uid).
    { intros ->. simpl in Hgetold. by rewrite decide_True in Hgetold. }
    assert (HJ : J = with_members
                       (JsMap.set uid (joined_member sid uid uname clk ((k, m) :: ms))
                          ((k, m) :: ms))
                       (<[sid := uid]> (socketToUser room)) room).
    { unfold J, joined_room. rewrite Hms. simpl. rewrite Hhf. simpl.
      by rewrite bool_decide_true. }
    rewrite bool_decide_false by done.
    unfold reassign_host. cbn [hostUserId with_members].
    rewrite HJ. cbn [hostUserId with_members]. rewrite Hhf.
    rewrite bool_decide_false by congruence. simpl.
    rewrite lookup_insert_eq. split; [|apply Hch].
    reflexivity.
  - rewrite lookup_delete_eq. split; [done|]. apply Hch.
Qed.

(** X17: joining a room as a user who is not yet a member and then
    leaving it again undoes the join.  A room that did not exist is gone
    again; a room that did has the members (in their order), host, song,
    position, status and [lastSync] it had, and the connection is no
    longer subscribed to it. *)
Theorem join_then_leave_restores w sid rid uid uname clk clk' w2 out :
  reachable w → rid ≠ "" → uid ≠ "" →
  (∀ room, rooms (server w) !! rid = Some room → JsMap.get uid (members room) = None) →
  run w [Recv sid (JoinRoom (Some rid) (Some uid) uname) clk;
         Recv sid (LeaveRoom (Some rid)) clk'] = Some (w2, out) →
  (λ room, (members room, hostUserId room, playback room)) <$> rooms (server w2) !! rid =
  (λ room, (members room, hostUserId room, playback room)) <$> rooms (server w) !! rid ∧
  sid ∉ channel (channels (server w2)) rid.
Proof.
  intros Hreach Hrid Huid Hfresh Hrun.
  pose proof (join_then_doLeave sid rid uid uname clk) as Hjl.
  cbn [run step handle] in Hrun.
  destruct (conns w !! sid) as [c|]; [|discriminate].
  specialize (Hjl c (server w) Hrid Huid (reachable_ok w Hreach)).
  cbv zeta in Hjl.
  destruct (on_join_room sid (Some rid) (Some uid) uname clk c (server w))
    as [c1 sv1 out1|]; [|discriminate].
  cbn [conns server outcome_conn outcome_server] in *.
  rewrite lookup_insert_eq in Hrun. unfold on_leave_room in Hrun.
  destruct (doLeave sid (Some rid) c1 sv1) as [[c2 sv2] out2].
  injection Hrun as <- _. cbn [server] in *.
  destruct Hjl as [Hlook Hch]; [|done|].
  { intros room Hroom. by destruct (reachable_host_first w Hreach rid room Hroom). }
  split; [|done]. simpl in Hlook. rewrite Hlook. by destruct (rooms (server w) !! rid).
Qed.

Lemma join_then_leave_restores_witness :
  ∃ w2 out,
    run (final_world three_listeners)
      [Recv "s3" (JoinRoom (Some "r1") (Some "dave") None) (tick 4000 "T4");
       Recv "s3" (LeaveRoom (Some "r1")) (tick 5000 "T5")] = Some (w2, out) ∧
    (λ room, (members room, hostUserId room, playback room)) <$> rooms (server w2) !! "r1" =
    (λ room, (members room, hostUserId room, playback room)) <$>
      rooms (server (final_world three_listeners)) !! "r1" ∧
    "s3" ∉ channel (channels (server w2)) "r1".
Proof.
  destruct (run (final_world three_listeners)
              [Recv "s3" (JoinRoom (Some "r1") (Some "dave") None) (tick 4000 "T4");
               Recv "s3" (LeaveRoom (Some "r1")) (tick 5000 "T5")])
    as [[w2 out]|] eqn:Hrun; [|vm_compute in Hrun; discriminate].
  exists w2, out. split; [reflexivity|].
  apply (join_then_leave_restores (final_world three_listeners) "s3" "r1" "dave" None
           (tick 4000 "T4") (tick 5000 "T5") w2 out).
  - apply final_world_reachable. vm_compute. eauto.
  - discriminate.
  - discriminate.
  - intros room Hroom. vm_compute in Hroom. injection Hroom as <-. reflexivity.
  - exact Hrun.
Defined.

(** ** Readings after a transport event *)

Lemma update_room_present rid f sv room :
  rooms sv !! rid = Some room →
  update_room (Some rid) f sv =
  {| rooms := <[rid := f room]> (rooms sv); channels := channels sv |}.
Proof. intros Hroom. unfold update_room. simpl. by rewrite Hroom. Qed.

(** X18: a paused or idle room reports a frozen position.  After
    [pause] at position p, and after [song_change] with no song, every
    later [request_state], whatever the clock reads, is answered with
    exactly p and "paused", respectively 0 and "idle" with no song; the
    member list in the answer is unchanged. *)
Theorem stopped_room_reports_frozen_position sid rid clk c sv room :
  rooms sv !! rid = Some room →
  (∀ p sid' clk' c',
     let sv' := outcome_server (on_pause sid (Some rid) (Some p) clk c sv) in
     on_request_state sid' (Some rid) clk' c' sv' =
       Returned c' sv'
         [Emit (socket_emit sid')
            (room_state rid (currentSong room) (Some p) (Some "paused")
               (now_server_time clk') (serializeMembers room rid))]) ∧
  (∀ sid' clk' c',
     let sv' := outcome_server (on_song_change sid (Some rid) None clk c sv) in
     on_request_state sid' (Some rid) clk' c' sv' =
       Returned c' sv'
         [Emit (socket_emit sid')
            (room_state rid None (Some 0%float) (Some "idle")
               (now_server_time clk') (serializeMembers room rid))]).
Proof.
  intros Hroom. split.
  - intros p sid' clk' c' sv'. subst sv'. unfold on_pause, on_transport.
    cbn [outcome_server]. rewrite (update_room_present _ _ _ _ Hroom).
    unfold on_request_state. simpl. by rewrite lookup_insert_eq.
  - intros sid' clk' c' sv'. subst sv'. unfold on_song_change.
    cbn [outcome_server]. rewrite (update_room_present _ _ _ _ Hroom).
    unfold on_request_state. simpl. by rewrite lookup_insert_eq.
Qed.

Lemma stopped_room_reports_frozen_position_witness :
  on_request_state "s2" (Some "r1") (tick 99000 "T99")
    {| currentRoomId := None; currentUserId := None |}
    (outcome_server
       (on_pause "s1" (Some "r1") (Some 33%float) (tick 8000 "T8") alice_conn
          (server (final_world playing_session)))) =
  Returned {| currentRoomId := None; currentUserId := None |}
    (outcome_server
       (on_pause "s1" (Some "r1") (Some 33%float) (tick 8000 "T8") alice_conn
          (server (final_world playing_session))))
    [Emit (socket_emit "s2")
       (room_state "r1" None (Some 33%float) (Some "paused") 99000
          (serializeMembers (room_at playing_session "r1") "r1"))].
Proof.
  apply (proj1 (stopped_room_reports_frozen_position "s1" "r1" (tick 8000 "T8") alice_conn
                  (server (final_world playing_session)) (room_at playing_session "r1")
                  ltac:(vm_compute; reflexivity))
           33%float "s2" (tick 99000 "T99")).
Defined.

(** ** Votes sent by the client *)

(** X19: the payload the client's [emitVote] builds carries no
    [room_id], and the server's [vote] handler relays only payloads with
    one: such a vote is received and dropped, with no emit and no change
    of state. *)
Theorem client_vote_is_not_relayed sid pollId userId songId clk c sv :
  handle sid (Vote (emitVote pollId userId songId)) clk c sv = Returned c sv [] ∧
  relay_msg (Vote (emitVote pollId userId songId)) clk = None.
Proof. done. Qed.

(** ** The heartbeat and the transport controls *)

(** X20: the heartbeat generalises [play] and [pause].  A
    [sync_position] whose status is "playing" (respectively "paused") and
    whose room id and position are present has exactly the outcome of
    the [play] (respectively [pause]) with that room id and position:
    same state, same relay; the [server_time] of its payload plays no
    part. *)
Theorem heartbeat_generalises_play_pause sid rid p t clk c sv :
  on_sync_position sid (Some rid) (Some p) (Some "playing") t clk c sv =
    on_play sid (Some rid) (Some p) clk c sv ∧
  on_sync_position sid (Some rid) (Some p) (Some "paused") t clk c sv =
    on_pause sid (Some rid) (Some p) clk c sv.
Proof. split; reflexivity. Qed.

(** ** Events without a payload *)

(** X11: which events make a handler throw.  An exception escapes exactly
    when the event carries no payload object (every handler destructures
    or dereferences its argument first), or a [play] or [pause] payload
    lacks its room id or its position, or a [song_change] payload carries
    a song but no room id (the fields that are there having the types
    the handlers declare).  With a payload object, [join_room],
    [request_state], [sync_position], [next_song], [vote] and
    [leave_room] always return; without one nothing is changed or emitted
    before the throw. *)
Theorem handler_throws_iff sid p clk c sv :
  (threw (receive sid p clk c sv) = true ↔
   match p with
   | NoPayload _ => True
   | WithPayload (Play r pos) | WithPayload (Pause r pos) => r = None ∨ pos = None
   | WithPayload (SongChange r (Some _)) => r = None
   | WithPayload _ => False
   end) ∧
  match p with
  | NoPayload _ =>
      outcome_server (receive sid p clk c sv) = sv ∧
      outcome_conn (receive sid p clk c sv) = c ∧
      outcome_emits (receive sid p clk c sv) = []
  | WithPayload m => receive sid p clk c sv = handle sid m clk c sv
  end.
Proof.
  destruct p as [m|name]; cbn [receive]; [|done].
  split; [|done]. rewrite handle_throws_iff.
  by destruct m as [r0 u n|r0|r0 pos s t|r0 pos|r0 pos|r0 [s|]|r0|d|r0].
Qed.

(** ** Who receives a [promoted_to_host] *)












